(** * The application loader of [packages/app/src/cli/models/app/loader.ts]

    A shallow embedding of the resolution and validation pipeline: the
    strict/report policy, the error set, configuration-file parsing,
    specification matching, extension and web resolution, root-directory
    discovery and the assembly of the application object.

    JavaScript values that the loader inspects at run time are modelled by
    [jsval]; the loader's effects (mutation of the error set, thrown errors)
    by the state-and-exception monad [Loader]. Collaborators that live outside
    [loader.ts] (filesystem, TOML decoder, schema validator, path helpers,
    package metadata) are the fields of the record [World]. *)

From stdpp Require Import gmap strings list fin_maps.
From Stdlib Require Import ZArith Ascii String.

Local Open Scope string_scope.
Set Warnings "-register-all".

(** ** Output messages

    [outputContent`...`] builds a message from literal chunks and interpolated
    tokens; the loader uses plain interpolation, [outputToken.path] and
    [outputToken.yellow]. *)

Inductive fragment : Type :=
  | text (s : string)
  | token_path (p : string)
  | token_yellow (s : string).

Abbreviation OutputMessage := (list fragment).

(** The line feed of the [\n] escapes in the messages. *)
Definition nl : string := String (ascii_of_nat 10) EmptyString.

(** ** Thrown values

    [AbortError] is the fatal error of [@shopify/cli-kit/node/error]; every
    other thrown value is an error object of which the loader reads
    [message], [line], [pos] and [col] ([None] is an absent property). *)

Record js_error : Type := mk_js_error {
  err_message : string;
  err_line : option Z;
  err_pos : option Z;
  err_col : option Z;
}.

Inductive exn : Type :=
  | AbortError (msg : OutputMessage)
  | OtherError (e : js_error).

(** ** Loader modes *)

Inductive AppLoaderMode : Type := strict | report.

(** ** class AppErrors

    The [errors] object is used as a map from path to message. *)

Module AppErrors.

Abbreviation t := (gmap string OutputMessage).

Definition empty : t := ∅.

Definition addError (path : string) (message : OutputMessage) (errors : t) : t :=
  <[path := message]> errors.

Definition getError (path : string) (errors : t) : option OutputMessage :=
  errors !! path.

(** [Object.keys(this.errors)] *)
Definition keys (errors : t) : list string := (map_to_list errors).*1.

Definition isEmpty (errors : t) : bool := Nat.eqb (List.length (keys errors)) 0.

End AppErrors.

(** ** The loader monad

    A computation of the loader reads and mutates the one [AppErrors] object of
    its [AppLoader] and either returns or throws; the object survives a throw. *)

Definition Loader (A : Type) : Type := AppErrors.t → (exn + A) * AppErrors.t.

Definition ret {A} (a : A) : Loader A := λ errors, (inr a, errors).

Definition throw {A} (e : exn) : Loader A := λ errors, (inl e, errors).

Definition bind {A B} (m : Loader A) (k : A → Loader B) : Loader B :=
  λ errors,
    match m errors with
    | (inr a, errors') => k a errors'
    | (inl e, errors') => (inl e, errors')
    end.

#[global] Instance Loader_ret : MRet Loader := @ret.
#[global] Instance Loader_bind : MBind Loader := λ A B k m, bind m k.

(** A collaborator call that returns or throws without touching the errors. *)
Definition call {A} (r : js_error + A) : Loader A :=
  match r with
  | inl e => throw (OtherError e)
  | inr a => ret a
  end.

(** [Promise.all(xs.map(f))], scheduled in list order. *)
Fixpoint mapM {A B} (f : A → Loader B) (xs : list A) : Loader (list B) :=
  match xs with
  | [] => ret []
  | x :: xs' => y ← f x; ys ← mapM f xs'; ret (y :: ys)
  end.

(** ** JavaScript values

    Decoded documents, schema output and the placeholders of the report path.
    Numbers are integers: fractions and NaN play no part in the loader. Object
    fields are kept in insertion order. *)

Inductive jsval : Type :=
  | JUndefined
  | JNull
  | JBool (b : bool)
  | JNum (n : Z)
  | JStr (s : string)
  | JArr (elems : list jsval)
  | JObj (fields : list (string * jsval)).

(** Truthiness, as tested by [if (x)], [!x] and [a && b]. *)
Definition truthy (v : jsval) : bool :=
  match v with
  | JUndefined | JNull => false
  | JBool b => b
  | JNum n => negb (n =? 0)%Z
  | JStr s => negb (String.eqb s "")
  | JArr _ | JObj _ => true
  end.

(** Truthiness of an optional numeric property such as [err.line]. *)
Definition truthy_num (p : option Z) : bool :=
  match p with
  | None => false
  | Some n => negb (n =? 0)%Z
  end.

(** Truthiness of an optional string such as [entryPath] or [config]. *)
Definition truthy_str (p : option string) : bool :=
  match p with
  | None => false
  | Some s => negb (String.eqb s "")
  end.

(** [v === null || v === undefined] *)
Definition nullish (v : jsval) : bool :=
  match v with
  | JUndefined | JNull => true
  | _ => false
  end.

(** SameValueZero, the equality of [Array.prototype.includes] and [Set].
    Arrays and objects compare by reference; two nodes of a document tree are
    never the same reference. *)
Definition same_value_zero (a b : jsval) : bool :=
  match a, b with
  | JUndefined, JUndefined => true
  | JNull, JNull => true
  | JBool x, JBool y => Bool.eqb x y
  | JNum x, JNum y => (x =? y)%Z
  | JStr x, JStr y => String.eqb x y
  | _, _ => false
  end.

(** [xs.includes(v)] *)
Definition includes (v : jsval) (xs : list jsval) : bool :=
  existsb (same_value_zero v) xs.

(** [key in obj] and [obj[key]] on the fields of an object. *)
Fixpoint get_field (key : string) (fields : list (string * jsval)) : option jsval :=
  match fields with
  | [] => None
  | (k, v) :: rest => if String.eqb k key then Some v else get_field key rest
  end.

Definition has_field (key : string) (fields : list (string * jsval)) : bool :=
  match get_field key fields with
  | Some _ => true
  | None => false
  end.

(** [{...obj, [key]: v}]: an existing key keeps its place, a new one goes last. *)
Fixpoint set_field (key : string) (v : jsval) (fields : list (string * jsval))
    : list (string * jsval) :=
  match fields with
  | [] => [(key, v)]
  | (k, w) :: rest =>
      if String.eqb k key then (k, v) :: rest else (k, w) :: set_field key v rest
  end.

(** The rest pattern [{key, ...rest} = obj]. *)
Definition remove_field (key : string) (fields : list (string * jsval))
    : list (string * jsval) :=
  filter (λ kv, negb (String.eqb kv.1 key)) fields.

(** [set.add(v)] on the insertion-ordered elements of a [Set]. *)
Definition set_add (elems : list jsval) (v : jsval) : list jsval :=
  if includes v elems then elems else (elems ++ [v])%list.

(** [new Set(array)] followed by [Array.from]. *)
Definition set_of_list (xs : list jsval) : list jsval := foldl set_add [] xs.

(** The characters of a string, as iteration yields them. *)
Fixpoint chars (s : string) : list jsval :=
  match s with
  | EmptyString => []
  | String c s' => JStr (String c EmptyString) :: chars s'
  end.

(** ** Regular expressions

    The fragment of the regular-expression syntax that the loader uses, with
    the language of an expression and a matcher by derivatives. [test] on an
    expression anchored by [^] and [$] asks whether the whole input is in the
    language. *)

Inductive regex : Type :=
  | Never
  | Eps
  | Class (p : ascii → bool)
  | Seq (r1 r2 : regex)
  | Alt (r1 r2 : regex)
  | Star (r : regex).

(** [r?] and [r+] *)
Definition Opt (r : regex) : regex := Alt r Eps.
Definition Plus (r : regex) : regex := Seq r (Star r).

(** A literal character and a literal string. *)
Definition Chr (c : ascii) : regex := Class (Ascii.eqb c).

Fixpoint Lit (s : string) : regex :=
  match s with
  | EmptyString => Eps
  | String c s' => Seq (Chr c) (Lit s')
  end.

Inductive lang : regex → string → Prop :=
  | lang_eps : lang Eps ""
  | lang_class p c : p c = true → lang (Class p) (String c "")
  | lang_seq r1 r2 s1 s2 : lang r1 s1 → lang r2 s2 → lang (Seq r1 r2) (s1 +:+ s2)
  | lang_alt_l r1 r2 s : lang r1 s → lang (Alt r1 r2) s
  | lang_alt_r r1 r2 s : lang r2 s → lang (Alt r1 r2) s
  | lang_star_nil r : lang (Star r) ""
  | lang_star_cons r s1 s2 : lang r s1 → lang (Star r) s2 → lang (Star r) (s1 +:+ s2).

Fixpoint nullable (r : regex) : bool :=
  match r with
  | Never => false
  | Eps => true
  | Class _ => false
  | Seq r1 r2 => nullable r1 && nullable r2
  | Alt r1 r2 => nullable r1 || nullable r2
  | Star _ => true
  end.

Fixpoint deriv (c : ascii) (r : regex) : regex :=
  match r with
  | Never => Never
  | Eps => Never
  | Class p => if p c then Eps else Never
  | Seq r1 r2 =>
      if nullable r1 then Alt (Seq (deriv c r1) r2) (deriv c r2)
      else Seq (deriv c r1) r2
  | Alt r1 r2 => Alt (deriv c r1) (deriv c r2)
  | Star r' => Seq (deriv c r') (Star r')
  end.

Fixpoint regex_test (r : regex) (s : string) : bool :=
  match s with
  | EmptyString => nullable r
  | String c s' => regex_test (deriv c r) s'
  end.

(** [\w] without the [u] and [i] flags: ASCII letters, digits and underscore. *)
Definition word_char (c : ascii) : bool :=
  let n := nat_of_ascii c in
  ((65 <=? n)%nat && (n <=? 90)%nat) || ((97 <=? n)%nat && (n <=? 122)%nat)
  || ((48 <=? n)%nat && (n <=? 57)%nat) || (n =? 95)%nat.

(** The class [[-\w]]. *)
Definition hyphen_or_word (c : ascii) : bool := Ascii.eqb c "-" || word_char c.

(** [/^shopify\.app(\.[-\w]+)?\.toml$/g] *)
Definition validFileRegex : regex :=
  Seq (Lit "shopify") (Seq (Chr ".") (Seq (Lit "app")
    (Seq (Opt (Seq (Chr ".") (Plus (Class hyphen_or_word))))
      (Seq (Chr ".") (Lit "toml"))))).

(** Every character of a string satisfies a class. *)
Fixpoint all_chars (p : ascii → bool) (s : string) : bool :=
  match s with
  | EmptyString => true
  | String c s' => p c && all_chars p s'
  end.

(** ** Data model *)

(** The result of [schema.safeParse]: [success] with the parsed [data], or
    failure with [error.issues]. *)
Inductive SafeParseReturn : Type :=
  | parse_success (data : jsval)
  | parse_failure (issues : jsval).

Record ZodSchema : Type := mk_schema {
  safeParse : jsval → SafeParseReturn;
}.

(** Modelled from the spec: the enumeration [WebType] of [./app.js] (absent).
    The spec names the backend and frontend roles, [loader.ts] uses
    [WebType.Backend] and [WebType.Frontend]; the enumeration is a string
    enumeration, its members are printed and compared as strings. *)
Inductive WebType : Type := Frontend | Backend | Background.

Definition WebType_value (t : WebType) : string :=
  match t with
  | Frontend => "frontend"
  | Backend => "backend"
  | Background => "background"
  end.

(** Modelled from the spec: the interface [ExtensionSpecification] of
    [../extensions/specification.js] (absent): primary identifier, optional
    external identifier, optional additional identifiers, configuration schema
    and the single-entry-point flag. *)
Record ExtensionSpecification : Type := mk_spec {
  identifier : string;
  externalIdentifier : option string;
  additionalIdentifiers : option (list string);
  schema : ZodSchema;
  singleEntryPath : bool;
}.

(** The constructor arguments of [ExtensionInstance]
    ([../extensions/extension-instance.js], absent). *)
Record ExtensionInstance : Type := mk_instance {
  ext_configuration : jsval;
  ext_configurationPath : string;
  ext_entryPath : option string;
  ext_directory : string;
  ext_specification : ExtensionSpecification;
}.

(** The [Result] of [ExtensionInstance.validate]. *)
Inductive validateResult : Type :=
  | ok
  | err (error : string).

(** A [Web]: [configuration] is the processed configuration, of which the
    loader reads [roles]; [web_rest] holds its other fields. *)
Record Web : Type := mk_web {
  web_directory : string;
  roles : list jsval;
  web_rest : list (string * jsval);
  framework : string;
}.

(** The object built by [new App(...)]; [errors] is unset until assigned. *)
Record App : Type := mk_app {
  app_name : string;
  idEnvironmentVariableName : string;
  app_directory : string;
  packageManager : string;
  app_configuration : jsval;
  app_configurationPath : string;
  nodeDependencies : jsval;
  webs : list Web;
  allExtensions : list ExtensionInstance;
  usesWorkspaces : bool;
  dotenv : option jsval;
  errors : option AppErrors.t;
}.

Definition set_errors (app : App) (e : AppErrors.t) : App :=
  mk_app (app_name app) (idEnvironmentVariableName app) (app_directory app)
    (packageManager app) (app_configuration app) (app_configurationPath app)
    (nodeDependencies app) (webs app) (allExtensions app) (usesWorkspaces app)
    (dotenv app) (Some e).

Record AppLoaderConstructorArgs : Type := mk_args {
  args_directory : string;
  args_mode : option AppLoaderMode;
  args_configName : option string;
  args_specifications : list ExtensionSpecification;
}.

Record AppLoader : Type := mk_loader {
  loader_directory : string;
  mode : AppLoaderMode;
  loader_configName : option string;
  specifications : list ExtensionSpecification;
}.

Record AppConfigurationLoader : Type := mk_configuration_loader {
  directory : string;
  configName : option string;
}.

Record AppConfigurationInterface : Type := mk_configuration_interface {
  appDirectory : string;
  configuration : jsval;
  configurationPath : string;
}.

(** ** Collaborators

    Everything [loader.ts] imports from outside the file and calls. A call
    that can throw returns [inl] of the thrown error. *)

Record World : Type := mk_world {
  (* @shopify/cli-kit/node/fs *)
  fileExists : string → bool;
  readFile : string → js_error + string;
  glob : list string → list string;
  (* @shopify/cli-kit/node/path *)
  joinPath : list string → string;
  dirname : string → string;
  basename : string → string;
  (* @shopify/cli-kit/node/toml *)
  decodeToml : string → js_error + jsval;
  (* ../extensions/schemas.js: TypeSchema.parse(obj).type *)
  TypeSchema_parse : jsval → js_error + string;
  (* ./app.js *)
  AppConfigurationSchema : ZodSchema;
  WebConfigurationSchema : ZodSchema;
  (* ../../constants.js *)
  configurationFileNames_app : string;
  configurationFileNames_web : string;
  dotEnvFileNames_production : string;
  (* JSON.stringify(issues, null, 2) *)
  JSON_stringify : jsval → string;
  (* @shopify/cli-kit/node/context/local *)
  isShopify : bool;
  (* @shopify/cli-kit/node/framework *)
  resolveFramework : string → string;
  (* ExtensionInstance.validate *)
  validate : ExtensionInstance → validateResult;
  (* ../../services/local-storage.js: getAppInfo(dir)?.configFile *)
  getAppInfo_configFile : string → option string;
  (* @shopify/cli-kit/node/dot-env *)
  readAndParseDotEnv : string → js_error + jsval;
  (* @shopify/cli-kit/node/node-package-manager *)
  getDependencies : string → js_error + jsval;
  getPackageManager : string → js_error + string;
  getPackageName : string → js_error + option string;
  appUsesWorkspaces : string → js_error + bool;
  (* the metadata sink fed by logMetadataForLoadedApp *)
  logMetadataForLoadedApp : App → bool → bool → js_error + unit;
}.

(** The type of the policy callback [AbortOrReport]. *)
Definition AbortOrReport : Type := ∀ T : Type, OutputMessage → T → string → Loader T.

(** The [TypeError] of a failed [in] or of iterating a non-iterable. *)
Definition TypeError : js_error := mk_js_error "TypeError" None None None.

(** [this.errors], read without change. *)
Definition this_errors : Loader AppErrors.t := λ errors, (inr errors, errors).

(** [array.find((x) => x !== undefined)] *)
Fixpoint find_defined {A} (xs : list (option A)) : option A :=
  match xs with
  | [] => None
  | Some x :: _ => Some x
  | None :: rest => find_defined rest
  end.

(** A property typed [string[] | undefined] of a validated configuration. *)
Definition string_array_field (key : string) (cfg : jsval) : option (list string) :=
  match cfg with
  | JObj fields =>
      match get_field key fields with
      | Some (JArr elems) =>
          Some (omap (λ v, match v with JStr s => Some s | _ => None end) elems)
      | _ => None
      end
  | _ => None
  end.

(** [array.forEach(f)] with an effectful callback. *)
Fixpoint forEach {A} (f : A → Loader unit) (xs : list A) : Loader unit :=
  match xs with
  | [] => ret tt
  | x :: xs' => f x;; forEach f xs'
  end.

(** The values that [new Set(iterable)] iterates: an array, the characters of
    a string, nothing for [undefined] and [null]; any other value is not
    iterable. *)
Definition iterate (v : jsval) : option (list jsval) :=
  match v with
  | JArr elems => Some elems
  | JStr s => Some (chars s)
  | JUndefined | JNull => Some []
  | _ => None
  end.

(** ** The policy functions *)

(** AppLoader.abortOrReport *)
Definition abortOrReport (this : AppLoader) : AbortOrReport :=
  λ T errorMessage fallback configurationPath,
    match mode this with
    | strict => throw (AbortError errorMessage)
    | report => λ errors,
        (inr fallback, AppErrors.addError configurationPath errorMessage errors)
    end.

(** AppConfigurationLoader.abort *)
Definition abort : AbortOrReport :=
  λ T errorMessage fallback configurationPath, throw (AbortError errorMessage).

(** ** getAppConfigurationFileName *)

Definition getAppConfigurationFileName (app : string) (config : option string) : string :=
  match config with
  | Some config =>
      if negb (String.eqb config "") then
        if regex_test validFileRegex config then config
        else "shopify.app." +:+ config +:+ ".toml"
      else app
  | None => app
  end.

(** ** findSpecificationForType *)

Definition findSpecificationForType (specifications : list ExtensionSpecification)
    (type : string) : option ExtensionSpecification :=
  List.find
    (λ spec,
      String.eqb (identifier spec) type
      || match externalIdentifier spec with
         | Some e => String.eqb e type
         | None => false
         end
      || match additionalIdentifiers spec with
         | Some ids => existsb (String.eqb type) ids
         | None => false
         end)
    specifications.

(** Modelled from the spec: [findPathUp] of [@shopify/cli-kit/node/fs]
    (absent), "a plain loop from the starting path through each ancestor,
    invoking the predicate and stopping at first match or filesystem root".
    The filesystem root is the directory that is its own [dirname]; every other
    [dirname] is a shorter path, so the length of the start bounds the walk. *)
Fixpoint findPathUp_from (steps : nat) (dirname : string → string)
    (matcher : string → option string) (directory : string) : option string :=
  match matcher directory with
  | Some found => Some found
  | None =>
      if String.eqb (dirname directory) directory then None
      else
        match steps with
        | O => None
        | S steps' => findPathUp_from steps' dirname matcher (dirname directory)
        end
  end.

Definition findPathUp (dirname : string → string)
    (matcher : string → option string) (cwd : string) : option string :=
  findPathUp_from (String.length cwd) dirname matcher cwd.

Section loader.

Context (W : World).

(** ** loadConfigurationFile and parseConfigurationFile *)

Definition loadConfigurationFile (filepath : string) (abortOrReport : AbortOrReport)
    (decode : string → js_error + jsval) : Loader jsval :=
  if negb (fileExists W filepath) then
    abortOrReport jsval
      [text "Couldn't find the configuration file at "; token_path filepath]
      (JStr "") filepath
  else
    match
      match readFile W filepath with
      | inr configurationContent => decode configurationContent
      | inl e => inl e
      end
    with
    | inr document => ret document
    | inl e =>
        (* TOML errors have line, pos and col properties *)
        if truthy_num (err_line e) && truthy_num (err_pos e) && truthy_num (err_col e)
        then
          abortOrReport jsval
            [text "Fix the following error in "; token_path filepath;
             text (":" +:+ nl); text (err_message e)]
            JNull filepath
        else throw (OtherError e)
    end.

Definition parseConfigurationFile (schema : ZodSchema) (filepath : string)
    (abortOrReport : AbortOrReport) (decode : string → js_error + jsval)
    : Loader jsval :=
  let fallbackOutput := JObj [] in
  configurationObject ← loadConfigurationFile filepath abortOrReport decode;
  if negb (truthy configurationObject) then ret fallbackOutput
  else
    match safeParse schema configurationObject with
    | parse_failure issues =>
        let formattedError := JSON_stringify W issues in
        abortOrReport jsval
          [text "Fix a schema error in "; token_path filepath;
           text (":" +:+ nl); text formattedError]
          fallbackOutput filepath
    | parse_success data => ret data
    end.

(** ** findSpecificationForConfig *)

Definition findSpecificationForConfig (specifications : list ExtensionSpecification)
    (configurationPath : string) (abortOrReport : AbortOrReport)
    : Loader (option ExtensionSpecification) :=
  fileContent ← call (readFile W configurationPath);
  obj ← call (decodeToml W fileContent);
  type ← call (TypeSchema_parse W obj);
  match findSpecificationForType specifications type with
  | None =>
      let isShopifolk := isShopify W in
      let shopifolkMessage :=
        nl +:+ "You might need to enable some beta flags on your Organization or App" in
      abortOrReport unit
        [text "Unknown extension type "; token_yellow type; text " in ";
         token_path configurationPath; text ". ";
         text (if isShopifolk then shopifolkMessage else "")]
        tt configurationPath;;
      ret None
  | Some specification => ret (Some specification)
  end.

(** ** class AppLoader *)

Definition new_AppLoader (args : AppLoaderConstructorArgs) : AppLoader :=
  mk_loader (args_directory args) (default strict (args_mode args))
    (args_configName args) (args_specifications args).

(** The candidates of a single-entry-point specification, relative to the
    extension directory, in probing order. *)
Definition single_entry_candidates : list string :=
  flat_map (λ fileName, ["src/" +:+ fileName; fileName])
    (flat_map
      (λ name, [name +:+ ".js"; name +:+ ".jsx"; name +:+ ".ts"; name +:+ ".tsx"])
      ["index"]).

Definition function_entry_candidates : list string :=
  ["src/index.js"; "src/index.ts"; "src/main.rs"].

(** The [Promise.all] of existence checks followed by [find]. *)
Definition probe (directory : string) (candidates : list string) : option string :=
  find_defined
    (map (λ sourcePath, if fileExists W sourcePath then Some sourcePath else None)
      (map (λ relativePath, joinPath W [directory; relativePath]) candidates)).

Definition findEntryPath_message (directory : string) : OutputMessage :=
  [text "Couldn't find an index.{js,jsx,ts,tsx} file in the directories ";
   token_path directory; text " or "; token_path (joinPath W [directory; "src"])].

Definition findEntryPath (this : AppLoader) (directory : string)
    (specification : ExtensionSpecification) : Loader (option string) :=
  if singleEntryPath specification then
    let entryPath := probe directory single_entry_candidates in
    (if negb (truthy_str entryPath) then
       abortOrReport this unit (findEntryPath_message directory) tt directory
     else ret tt);;
    ret entryPath
  else if String.eqb (identifier specification) "function" then
    ret (probe directory function_entry_candidates)
  else ret None.

(** ** Webs *)

Definition role_conflict_message (webType : WebType) : OutputMessage :=
  [text "You can only have one web with the ";
   token_yellow (WebType_value webType); text " role in your app"].

(** [web.configuration.roles.includes(webType)], also [isWebType]. *)
Definition isWebType (web : Web) (type : WebType) : bool :=
  includes (JStr (WebType_value type)) (roles web).

Definition validateWebs (this : AppLoader) (webs : list Web) : Loader unit :=
  forEach
    (λ webType,
      let websOfType := filter (λ web, isWebType web webType) webs in
      if (1 <? List.length websOfType)%nat then
        match websOfType !! 1%nat with
        | Some second =>
            abortOrReport this unit (role_conflict_message webType) tt
              (joinPath W [web_directory second; configurationFileNames_web W])
        | None => throw (OtherError TypeError)
        end
      else ret tt)
    [Backend; Frontend].

(** [loadWeb]. The parsed configuration is an object (the web schema is an
    object schema and the fallback is [{}]); [in] throws on anything else. *)
Definition loadWeb (this : AppLoader) (WebConfigurationFile : string) : Loader Web :=
  config ← parseConfigurationFile (WebConfigurationSchema W) WebConfigurationFile
    (abortOrReport this) (decodeToml W);
  match config with
  | JObj fields =>
      match
        (if has_field "roles" fields
         then iterate (default JUndefined (get_field "roles" fields))
         else Some [])
      with
      | None => throw (OtherError TypeError)
      | Some declared =>
          let roles := set_of_list declared in
          let roles :=
            if has_field "type" fields
            then set_add roles (default JUndefined (get_field "type" fields))
            else roles in
          let processedWebConfiguration :=
            remove_field "type"
              (set_field "type" JUndefined (set_field "roles" (JArr roles) fields)) in
          ret (mk_web (dirname W WebConfigurationFile) roles
                 (remove_field "roles" processedWebConfiguration)
                 (resolveFramework W (dirname W WebConfigurationFile)))
      end
  | _ => throw (OtherError TypeError)
  end.

Definition loadWebs (this : AppLoader) (appDirectory : string)
    (webDirectories : option (list string)) : Loader (list Web * bool) :=
  let defaultWebDirectory := "**" in
  let webConfigGlobs :=
    (map (λ webGlob, joinPath W [appDirectory; webGlob; configurationFileNames_web W])
       (default [defaultWebDirectory] webDirectories)
     ++ ["!" +:+ joinPath W [appDirectory; "**/node_modules/**"]])%list in
  let webTomlPaths := glob W webConfigGlobs in
  webs ← mapM (loadWeb this) webTomlPaths;
  validateWebs this webs;;
  let webTomlsInStandardLocation :=
    glob W [joinPath W [appDirectory; "web/**/" +:+ configurationFileNames_web W]] in
  let usedCustomLayout :=
    bool_decide (is_Some webDirectories)
    || negb (List.length webTomlsInStandardLocation =? List.length webTomlPaths)%nat in
  ret (webs, usedCustomLayout).

(** ** Extensions *)

Definition defaultExtensionDirectory : string := "extensions/*".

(** The body of the [configPaths.map(async (configurationPath) => ...)]
    callback of [loadExtensions]. *)
Definition loadExtension (this : AppLoader) (configurationPath : string)
    : Loader (option ExtensionInstance) :=
  let directory := dirname W configurationPath in
  specification ← findSpecificationForConfig (specifications this) configurationPath
    (abortOrReport this);
  match specification with
  | None => ret None
  | Some specification =>
      configuration ← parseConfigurationFile (schema specification) configurationPath
        (abortOrReport this) (decodeToml W);
      entryPath ← findEntryPath this directory specification;
      let extensionInstance :=
        mk_instance configuration configurationPath entryPath directory specification in
      match validate W extensionInstance with
      | err error => abortOrReport this unit [text nl; text error] tt configurationPath
      | ok => ret tt
      end;;
      ret (Some extensionInstance)
  end.

(** [getArrayRejectingUndefined] *)
Definition getArrayRejectingUndefined {A} (xs : list (option A)) : list A :=
  omap id xs.

Definition loadExtensions (this : AppLoader) (appDirectory : string)
    (extensionDirectories : option (list string))
    : Loader (list ExtensionInstance * bool) :=
  let extensionConfigPaths :=
    (map (λ extensionPath, joinPath W [appDirectory; extensionPath; "*.extension.toml"])
       (default [defaultExtensionDirectory] extensionDirectories)
     ++ ["!" +:+ joinPath W [appDirectory; "**/node_modules/**"]])%list in
  let configPaths := glob W extensionConfigPaths in
  extensions ← mapM (loadExtension this) configPaths;
  let allExtensions := getArrayRejectingUndefined extensions in
  ret (allExtensions, bool_decide (is_Some extensionDirectories)).

(** ** class AppConfigurationLoader *)

(** The callback handed to [findPathUp]. *)
Definition containsAppConfiguration (directory : string) : option string :=
  let found := glob W [joinPath W [directory; "shopify.app*.toml"]] in
  if (0 <? List.length found)%nat then Some directory else None.

Definition directory_not_found (directory : string) : OutputMessage :=
  [text "Couldn't find directory "; token_path directory].

Definition configuration_not_found (directory : string) : OutputMessage :=
  [text "Couldn't find the configuration file for "; token_path directory;
   text ", are you in an app directory?"].

Definition getAppDirectory (this : AppConfigurationLoader) : Loader string :=
  if negb (fileExists W (directory this)) then
    throw (AbortError (directory_not_found (directory this)))
  else
    let appDirectory :=
      findPathUp (dirname W) containsAppConfiguration (directory this) in
    if truthy_str appDirectory then ret (default "" appDirectory)
    else throw (AbortError (configuration_not_found (directory this))).

Definition getConfigurationPath (this : AppConfigurationLoader) (appDirectory : string)
    : Loader string :=
  let configurationFileName :=
    getAppConfigurationFileName (configurationFileNames_app W) (configName this) in
  let configurationPath := joinPath W [appDirectory; configurationFileName] in
  if fileExists W configurationPath then ret configurationPath
  else
    throw (AbortError
      [text "Couldn't find "; text configurationFileName; text " in ";
       token_path (directory this); text "."]).

Definition AppConfigurationLoader_loaded (this : AppConfigurationLoader)
    : Loader AppConfigurationInterface :=
  appDirectory ← getAppDirectory this;
  let this :=
    mk_configuration_loader (directory this)
      (match configName this with
       | Some name => Some name
       | None => getAppInfo_configFile W appDirectory
       end) in
  configurationPath ← getConfigurationPath this appDirectory;
  configuration ← parseConfigurationFile (AppConfigurationSchema W) configurationPath
    abort (decodeToml W);
  ret (mk_configuration_interface appDirectory configuration configurationPath).

(** ** Assembly *)

Definition loadAppName (appDirectory : string) : Loader string :=
  let packageJSONPath := joinPath W [appDirectory; "package.json"] in
  name ← call (getPackageName W packageJSONPath);
  ret (default (basename W appDirectory) name).

Definition loadDotEnv (appDirectory : string) : Loader (option jsval) :=
  let dotEnvPath := joinPath W [appDirectory; dotEnvFileNames_production W] in
  if fileExists W dotEnvPath then
    dotEnvFile ← call (readAndParseDotEnv W dotEnvPath);
    ret (Some dotEnvFile)
  else ret None.

Definition loaded (this : AppLoader) : Loader App :=
  let configurationLoader :=
    mk_configuration_loader (loader_directory this) (loader_configName this) in
  loadedConfiguration ← AppConfigurationLoader_loaded configurationLoader;
  let appDirectory := appDirectory loadedConfiguration in
  let configurationPath := configurationPath loadedConfiguration in
  let configuration := configuration loadedConfiguration in
  dotenv ← loadDotEnv appDirectory;
  '(allExtensions, usedCustomLayout) ←
    loadExtensions this appDirectory
      (string_array_field "extension_directories" configuration);
  let packageJSONPath := joinPath W [appDirectory; "package.json"] in
  name ← loadAppName appDirectory;
  nodeDependencies ← call (getDependencies W packageJSONPath);
  packageManager ← call (getPackageManager W appDirectory);
  '(webs, usedCustomLayoutForWeb) ←
    loadWebs this appDirectory (string_array_field "web_directories" configuration);
  usesWorkspaces ← call (appUsesWorkspaces W appDirectory);
  let appClass :=
    mk_app name "SHOPIFY_API_KEY" appDirectory packageManager configuration
      configurationPath nodeDependencies webs allExtensions usesWorkspaces dotenv None in
  errors ← this_errors;
  let appClass :=
    if negb (AppErrors.isEmpty errors) then set_errors appClass errors else appClass in
  call (logMetadataForLoadedApp W appClass usedCustomLayoutForWeb usedCustomLayout);;
  ret appClass.

(** [load]: a fresh loader with a fresh, empty [AppErrors]. *)
Definition load (options : AppLoaderConstructorArgs) : (exn + App) * AppErrors.t :=
  let loader := new_AppLoader options in
  loaded loader AppErrors.empty.

End loader.

(** ** Sample worlds

    Concrete collaborators on which the loader can be run: a filesystem given
    by its directories and files, [joinPath] joining with a slash, [dirname]
    cutting an absolute path at its last slash. *)

Fixpoint assoc {A} (key : string) (table : list (string * A)) : option A :=
  match table with
  | [] => None
  | (k, v) :: rest => if String.eqb k key then Some v else assoc key rest
  end.

Fixpoint last_slash (s : string) : option nat :=
  match s with
  | EmptyString => None
  | String c s' =>
      match last_slash s' with
      | Some i => Some (S i)
      | None => if Ascii.eqb c "/" then Some 0%nat else None
      end
  end.

Definition sample_dirname (s : string) : string :=
  match last_slash s with
  | None => s
  | Some O => "/"
  | Some i => String.substring 0 i s
  end.

Definition sample_joinPath (parts : list string) : string := String.concat "/" parts.

Definition no_such_file : js_error := mk_js_error "ENOENT" None None None.

Definition any_schema : ZodSchema := mk_schema parse_success.

(** [type] of a decoded document when it is a string. *)
Definition sample_TypeSchema_parse (obj : jsval) : js_error + string :=
  match obj with
  | JObj fields =>
      match get_field "type" fields with
      | Some (JStr type) => inr type
      | _ => inl (mk_js_error "ZodError" None None None)
      end
  | _ => inl (mk_js_error "ZodError" None None None)
  end.

Definition sample_world (directories : list string) (files : list (string * string))
    (glob : list string → list string) (decode : string → js_error + jsval)
    (validate : ExtensionInstance → validateResult) : World :=
  mk_world
    (λ path, existsb (String.eqb path) directories
             || existsb (String.eqb path) files.*1)
    (λ path, match assoc path files with Some c => inr c | None => inl no_such_file end)
    glob
    sample_joinPath sample_dirname (λ path, path)
    decode sample_TypeSchema_parse
    any_schema any_schema
    "shopify.app.toml" "shopify.web.toml" ".env"
    (λ _, "[]")
    false
    (λ _, "unknown")
    validate
    (λ _, None)
    (λ _, inr (JObj []))
    (λ _, inr (JObj []))
    (λ _, inr "npm")
    (λ _, inr None)
    (λ _, inr false)
    (λ _ _ _, inr tt).

(** The probing order as the documentation lists it. *)
Definition documented_candidates : list string :=
  ["index.js"; "index.jsx"; "index.ts"; "index.tsx";
   "src/index.js"; "src/index.jsx"; "src/index.ts"; "src/index.tsx"].

Definition ui_specification : ExtensionSpecification :=
  mk_spec "ui_extension" (Some "ui_extension_external") (Some ["checkout_ui"])
    any_schema true.

Definition report_loader : AppLoader := mk_loader "/app" report None [ui_specification].
Definition strict_loader : AppLoader := mk_loader "/app" strict None [ui_specification].

(** An extension directory holding both [index.js] and [src/index.js]. *)
Definition world_two_entries : World :=
  sample_world ["/app"; "/app/ext"; "/app/ext/src"]
    [("/app/ext/index.js", ""); ("/app/ext/src/index.js", "")]
    (λ _, []) (λ _, inr (JObj [])) (λ _, ok).

(** An extension directory holding [index.js] and [src/index.ts]. *)
Definition world_js_and_ts : World :=
  sample_world ["/app"; "/app/ext"; "/app/ext/src"]
    [("/app/ext/index.js", ""); ("/app/ext/src/index.ts", "")]
    (λ _, []) (λ _, inr (JObj [])) (λ _, ok).

(** ** Vocabulary of the statements about configuration files *)

(** The [try] block of [loadConfigurationFile] throws [e]: reading the file
    or decoding its content fails. *)
Definition decoding_fails (W : World) (filepath : string)
    (decode : string → js_error + jsval) (e : js_error) : Prop :=
  readFile W filepath = inl e
  ∨ ∃ configurationContent,
      readFile W filepath = inr configurationContent
      ∧ decode configurationContent = inl e.

(** The three position properties are present on the error. *)
Definition has_position (e : js_error) : bool :=
  bool_decide (is_Some (err_line e)) && bool_decide (is_Some (err_pos e))
  && bool_decide (is_Some (err_col e)).

(** The test of the [catch] block: the three properties are truthy. *)
Definition position_truthy (e : js_error) : bool :=
  truthy_num (err_line e) && truthy_num (err_pos e) && truthy_num (err_col e).

Definition missing_file_message (filepath : string) : OutputMessage :=
  [text "Couldn't find the configuration file at "; token_path filepath].

Definition decode_error_message (filepath : string) (e : js_error) : OutputMessage :=
  [text "Fix the following error in "; token_path filepath;
   text (":" +:+ nl); text (err_message e)].

(** A decoder that fails on the content ["= 1"] at line 0, column 0, and one
    that fails on ["a = ["] at line 2, column 5. *)
Definition first_line_error : js_error :=
  mk_js_error "Unexpected character, expecting string, number, datetime"
    (Some 0%Z) (Some 0%Z) (Some 0%Z).

Definition third_line_error : js_error :=
  mk_js_error "Unterminated inline array" (Some 2%Z) (Some 30%Z) (Some 5%Z).

Definition sample_decode (content : string) : js_error + jsval :=
  if String.eqb content "= 1" then inl first_line_error
  else if String.eqb content "a = [" then inl third_line_error
  else if String.eqb content "type = 'unknown-kind'"
    then inr (JObj [("type", JStr "unknown-kind")])
  else if String.eqb content "type = 'ui_extension'"
    then inr (JObj [("type", JStr "ui_extension")])
  else if String.eqb content "name = 'no type'"
    then inr (JObj [("name", JStr "no type")])
  else inr (JObj []).

Definition world_malformed : World :=
  sample_world ["/app"; "/app/web"]
    [("/app/shopify.app.toml", "= 1"); ("/app/web/shopify.web.toml", "a = [");
     ("/app/extensions/a/a.extension.toml", "a = [");
     ("/app/extensions/b/b.extension.toml", "name = 'no type'")]
    (λ _, []) sample_decode (λ _, ok).

(** ** Vocabulary of the statements about webs and extensions *)

(** The webs that declare a role, in the order of the list. *)
Definition websOfType (webs : list Web) (webType : WebType) : list Web :=
  filter (λ web, isWebType web webType) webs.

(** The path under which a role conflict on a web is reported. *)
Definition conflict_path (W : World) (web : Web) : string :=
  joinPath W [web_directory web; configurationFileNames_web W].

(** What validating one role adds to the error set in report mode. *)
Definition record_conflict (W : World) (webs : list Web) (webType : WebType)
    (errors : AppErrors.t) : AppErrors.t :=
  match websOfType webs webType with
  | _ :: second :: _ =>
      AppErrors.addError (conflict_path W second) (role_conflict_message webType) errors
  | _ => errors
  end.

(** The web configuration files that [loadWebs] finds. *)
Definition webTomlPaths (W : World) (appDirectory : string)
    (webDirectories : option (list string)) : list string :=
  glob W
    (map (λ webGlob, joinPath W [appDirectory; webGlob; configurationFileNames_web W])
       (default ["**"] webDirectories)
     ++ ["!" +:+ joinPath W [appDirectory; "**/node_modules/**"]])%list.

(** The extension configuration files that [loadExtensions] finds. *)
Definition configPaths (W : World) (appDirectory : string)
    (extensionDirectories : option (list string)) : list string :=
  glob W
    (map (λ extensionPath, joinPath W [appDirectory; extensionPath; "*.extension.toml"])
       (default [defaultExtensionDirectory] extensionDirectories)
     ++ ["!" +:+ joinPath W [appDirectory; "**/node_modules/**"]])%list.

(** A [glob] given by the results for the first pattern of a call. *)
Definition glob_table (table : list (string * list string)) (patterns : list string)
    : list string :=
  match patterns with
  | pattern :: _ => default [] (assoc pattern table)
  | [] => []
  end.

Definition sample_web_decode (content : string) : js_error + jsval :=
  if String.eqb content "roles = ['backend']"
    then inr (JObj [("roles", JArr [JStr "backend"])])
  else if String.eqb content "roles = ['frontend', 'backend']"
    then inr (JObj [("roles", JArr [JStr "frontend"; JStr "backend"])])
  else if String.eqb content "type = 'frontend'"
    then inr (JObj [("type", JStr "frontend")])
  else sample_decode content.

(** An app with two webs that declare the backend role only. *)
Definition world_two_backends : World :=
  sample_world ["/app"; "/app/web"; "/app/web/a"; "/app/web/b"]
    [("/app/shopify.app.toml", "name = 'app'");
     ("/app/web/a/shopify.web.toml", "roles = ['backend']");
     ("/app/web/b/shopify.web.toml", "roles = ['backend']")]
    (glob_table
       [("/app/**/shopify.web.toml",
         ["/app/web/a/shopify.web.toml"; "/app/web/b/shopify.web.toml"]);
        ("/app/web/**/shopify.web.toml",
         ["/app/web/a/shopify.web.toml"; "/app/web/b/shopify.web.toml"]);
        ("/app/shopify.app*.toml", ["/app/shopify.app.toml"])])
    sample_web_decode (λ _, ok).

(** An app with two webs that each declare the frontend and backend roles. *)
Definition world_two_fullstack : World :=
  sample_world ["/app"; "/app/web"; "/app/web/a"; "/app/web/b"]
    [("/app/shopify.app.toml", "name = 'app'");
     ("/app/web/a/shopify.web.toml", "roles = ['frontend', 'backend']");
     ("/app/web/b/shopify.web.toml", "roles = ['frontend', 'backend']")]
    (glob_table
       [("/app/**/shopify.web.toml",
         ["/app/web/a/shopify.web.toml"; "/app/web/b/shopify.web.toml"]);
        ("/app/web/**/shopify.web.toml",
         ["/app/web/a/shopify.web.toml"; "/app/web/b/shopify.web.toml"]);
        ("/app/shopify.app*.toml", ["/app/shopify.app.toml"])])
    sample_web_decode (λ _, ok).

Definition fullstack_web (directory : string) : Web :=
  mk_web directory [JStr "frontend"; JStr "backend"] [] "unknown".

Definition backend_web (directory : string) : Web :=
  mk_web directory [JStr "backend"] [] "unknown".

(** The file at [path] declares a type that no specification accepts. *)
Definition unknown_type (W : World) (specifications : list ExtensionSpecification)
    (path type : string) : Prop :=
  ∃ fileContent obj,
    readFile W path = inr fileContent
    ∧ decodeToml W fileContent = inr obj
    ∧ TypeSchema_parse W obj = inr type
    ∧ ∀ specification, specification ∈ specifications →
        identifier specification ≠ type
        ∧ externalIdentifier specification ≠ Some type
        ∧ ∀ ids, additionalIdentifiers specification = Some ids → type ∉ ids.

Definition unknown_type_message (W : World) (type configurationPath : string)
    : OutputMessage :=
  [text "Unknown extension type "; token_yellow type; text " in ";
   token_path configurationPath; text ". ";
   text (if isShopify W
         then nl +:+ "You might need to enable some beta flags on your Organization or App"
         else "")].

(** A computation that never removes a path from the error set. *)
Definition grows {A} (m : Loader A) : Prop :=
  ∀ errors outcome errors', m errors = (outcome, errors') → dom errors ⊆ dom errors'.

(** An app whose only extension declares a type that is not registered. *)
Definition world_unknown_extension : World :=
  sample_world ["/app"; "/app/extensions"; "/app/extensions/x"]
    [("/app/shopify.app.toml", "name = 'app'");
     ("/app/extensions/x/x.extension.toml", "type = 'unknown-kind'")]
    (glob_table
       [("/app/extensions/*/*.extension.toml", ["/app/extensions/x/x.extension.toml"]);
        ("/app/shopify.app*.toml", ["/app/shopify.app.toml"])])
    sample_decode (λ _, ok).

(** ** Vocabulary of the statements about the root directory *)

(** [directory] holds a file that matches [shopify.app*.toml]. *)
Definition has_app_configuration (W : World) (directory : string) : bool :=
  (0 <? List.length (glob W [joinPath W [directory; "shopify.app*.toml"]]))%nat.

(** The [k]-th ancestor of a directory; the directory itself for [k = 0]. *)
Definition ancestor (W : World) (k : nat) (directory : string) : string :=
  Nat.iter k (dirname W) directory.

(** An app with no web and no extension. *)
Definition world_plain : World :=
  sample_world ["/app"; "/app/src"; "/app/src/lib"]
    [("/app/shopify.app.toml", "name = 'app'")]
    (glob_table [("/app/shopify.app*.toml", ["/app/shopify.app.toml"])])
    sample_decode (λ _, ok).

(** What loading [world_unknown_extension] in report mode produces. *)
Definition unknown_extension_errors : AppErrors.t :=
  AppErrors.addError "/app/extensions/x/x.extension.toml"
    (unknown_type_message world_unknown_extension "unknown-kind"
       "/app/extensions/x/x.extension.toml")
    AppErrors.empty.

Definition unknown_extension_app : App :=
  mk_app "/app" "SHOPIFY_API_KEY" "/app" "npm" (JObj []) "/app/shopify.app.toml"
    (JObj []) [] [] false None (Some unknown_extension_errors).

(** What loading [world_plain] produces. *)
Definition plain_app : App :=
  mk_app "/app" "SHOPIFY_API_KEY" "/app" "npm" (JObj []) "/app/shopify.app.toml"
    (JObj []) [] [] false None None.

Definition report_options : AppLoaderConstructorArgs :=
  mk_args "/app" (Some report) None [ui_specification].

(** ** getProjectType

    The debug lines written by [outputDebug] are not part of the result. *)

Definition getProjectType (W : World) (webs : list Web) : option string :=
  let backendWebs := filter (λ web, isWebType web Backend) webs in
  let frontendWebs := filter (λ web, isWebType web Frontend) webs in
  if (1 <? List.length backendWebs)%nat then None
  else if (List.length backendWebs =? 0)%nat && (0 <? List.length frontendWebs)%nat
  then Some "frontend"
  else if (List.length backendWebs =? 0)%nat then None
  else
    match backendWebs !! 0%nat with
    | Some first =>
        let directory := web_directory first in
        let nodeConfigFile := joinPath W [directory; "package.json"] in
        let rubyConfigFile := joinPath W [directory; "Gemfile"] in
        let phpConfigFile := joinPath W [directory; "composer.json"] in
        if fileExists W nodeConfigFile then Some "node"
        else if fileExists W rubyConfigFile then Some "ruby"
        else if fileExists W phpConfigFile then Some "php"
        else None
    | None => None
    end.

(** [loadAppConfiguration] *)
Definition loadAppConfiguration (W : World) (options : AppConfigurationLoader)
    : Loader AppConfigurationInterface :=
  AppConfigurationLoader_loaded W options.

(** ** Vocabulary of the further statements *)

(** A computation that leaves the error set as it found it. *)
Definition unchanged {A} (m : Loader A) : Prop :=
  ∀ errors outcome errors', m errors = (outcome, errors') → errors' = errors.

(** A specification accepts a type: by its identifier, its external identifier
    or one of its additional identifiers. *)
Definition accepts (specification : ExtensionSpecification) (type : string) : Prop :=
  identifier specification = type
  ∨ externalIdentifier specification = Some type
  ∨ ∃ ids, additionalIdentifiers specification = Some ids ∧ type ∈ ids.

(** Values that [Set] and [includes] compare by value. *)
Definition primitive (v : jsval) : bool :=
  match v with
  | JArr _ | JObj _ => false
  | _ => true
  end.

Definition schema_error_message (W : World) (filepath : string) (issues : jsval)
    : OutputMessage :=
  [text "Fix a schema error in "; token_path filepath;
   text (":" +:+ nl); text (JSON_stringify W issues)].

Definition validation_error_message (error : string) : OutputMessage :=
  [text nl; text error].

Definition configuration_file_not_found (configurationFileName directory : string)
    : OutputMessage :=
  [text "Couldn't find "; text configurationFileName; text " in ";
   token_path directory; text "."].

(** A schema whose parsed data is [null] for every document. *)
Definition null_schema : ZodSchema := mk_schema (λ _, parse_success JNull).

(** An app whose root and web configuration files are malformed on their
    first line. *)
Definition world_malformed_root : World :=
  sample_world ["/app"; "/app/web"]
    [("/app/shopify.app.toml", "= 1"); ("/app/web/shopify.web.toml", "= 1")]
    (glob_table
       [("/app/**/shopify.web.toml", ["/app/web/shopify.web.toml"]);
        ("/app/web/**/shopify.web.toml", ["/app/web/shopify.web.toml"]);
        ("/app/shopify.app*.toml", ["/app/shopify.app.toml"])])
    sample_decode (λ _, ok).

(** A schema that rejects every document. *)
Definition rejecting_schema : ZodSchema :=
  mk_schema (λ _, parse_failure (JArr [JStr "Required"])).

(** A world with other schemas for the root and web configurations. *)
Definition with_schemas (W : World) (app web : ZodSchema) : World :=
  mk_world (fileExists W) (readFile W) (glob W) (joinPath W) (dirname W) (basename W)
    (decodeToml W) (TypeSchema_parse W) app web
    (configurationFileNames_app W) (configurationFileNames_web W)
    (dotEnvFileNames_production W) (JSON_stringify W) (isShopify W)
    (resolveFramework W) (validate W) (getAppInfo_configFile W)
    (readAndParseDotEnv W) (getDependencies W) (getPackageManager W)
    (getPackageName W) (appUsesWorkspaces W) (logMetadataForLoadedApp W).

(** An app with one web that declares the legacy [type] and repeats a role. *)
Definition sample_legacy_decode (content : string) : js_error + jsval :=
  if String.eqb content "type = 'backend'; roles = ['frontend', 'frontend']"
    then inr (JObj [("name", JStr "web"); ("type", JStr "backend");
                    ("roles", JArr [JStr "frontend"; JStr "frontend"])])
  else sample_web_decode content.

Definition world_legacy_web : World :=
  sample_world ["/app"; "/app/web"]
    [("/app/shopify.app.toml", "name = 'app'");
     ("/app/web/shopify.web.toml", "type = 'backend'; roles = ['frontend', 'frontend']");
     ("/app/web/package.json", "{}")]
    (glob_table
       [("/app/**/shopify.web.toml", ["/app/web/shopify.web.toml"]);
        ("/app/web/**/shopify.web.toml", ["/app/web/shopify.web.toml"]);
        ("/app/shopify.app*.toml", ["/app/shopify.app.toml"])])
    sample_legacy_decode (λ _, ok).

(** An app whose only extension is of a registered type, has its entry point
    and fails its own validation. *)
Definition world_invalid_extension : World :=
  sample_world ["/app"; "/app/extensions"; "/app/extensions/x"]
    [("/app/shopify.app.toml", "name = 'app'");
     ("/app/extensions/x/x.extension.toml", "type = 'ui_extension'");
     ("/app/extensions/x/index.ts", "")]
    (glob_table
       [("/app/extensions/*/*.extension.toml", ["/app/extensions/x/x.extension.toml"]);
        ("/app/shopify.app*.toml", ["/app/shopify.app.toml"])])
    sample_decode (λ _, err "missing target").

Definition invalid_extension : ExtensionInstance :=
  mk_instance (JObj [("type", JStr "ui_extension")])
    "/app/extensions/x/x.extension.toml" (Some "/app/extensions/x/index.ts")
    "/app/extensions/x" ui_specification.

Definition function_specification : ExtensionSpecification :=
  mk_spec "function" None None any_schema false.

(** * Theorems *)

(** ** The loader monad *)

Lemma bind_run {A B} (m : Loader A) (k : A → Loader B) (s : AppErrors.t) :
  (m ≫= k) s =
    match m s with
    | (inr a, s') => k a s'
    | (inl e, s') => (inl e, s')
    end.
Proof. reflexivity. Qed.

Lemma bind_returns {A B} (m : Loader A) (k : A → Loader B) s b s' :
  (m ≫= k) s = (inr b, s') →
  ∃ a s1, m s = (inr a, s1) ∧ k a s1 = (inr b, s').
Proof.
  rewrite bind_run. destruct (m s) as [[e|a] s1]; [discriminate|].
  intros Hk. by exists a, s1.
Qed.

Lemma bind_throws {A B} (m : Loader A) (k : A → Loader B) s e s' :
  m s = (inl e, s') → (m ≫= k) s = (inl e, s').
Proof. intros Hm. by rewrite bind_run, Hm. Qed.

Lemma bind_step {A B} (m : Loader A) (k : A → Loader B) s a s1 :
  m s = (inr a, s1) → (m ≫= k) s = k a s1.
Proof. intros Hm. by rewrite bind_run, Hm. Qed.

Lemma call_returns {A} (r : js_error + A) errors a errors' :
  call r errors = (inr a, errors') → r = inr a ∧ errors' = errors.
Proof. destruct r; [discriminate|]. by intros [= <- <-]. Qed.

(** ** The policy *)

(** C2: in strict mode [abortOrReport] throws the fatal error carrying the
    message and does not return; in report mode it stores the message under the
    path, whatever was stored there before, leaves every other path alone and
    returns the fallback. *)
Theorem abortOrReport_policy {T} (this : AppLoader) (message : OutputMessage)
    (fallback : T) (path : string) (errors : AppErrors.t) :
  match mode this with
  | strict =>
      abortOrReport this T message fallback path errors
      = (inl (AbortError message), errors)
  | report =>
      ∃ errors',
        abortOrReport this T message fallback path errors = (inr fallback, errors')
        ∧ AppErrors.getError path errors' = Some message
        ∧ ∀ other, other ≠ path →
            AppErrors.getError other errors' = AppErrors.getError other errors
  end.
Proof.
  unfold abortOrReport. destruct (mode this); [reflexivity|].
  exists (AppErrors.addError path message errors).
  split; [reflexivity|]. unfold AppErrors.getError, AppErrors.addError. split.
  - apply lookup_insert_eq.
  - intros other Hne. by apply lookup_insert_ne.
Qed.

(** ** Entry points *)

Section entry_points.

Context (W : World).

Lemma probe_cons directory c cs :
  probe W directory (c :: cs) =
    if fileExists W (joinPath W [directory; c])
    then Some (joinPath W [directory; c])
    else probe W directory cs.
Proof. unfold probe. simpl. by destruct (fileExists W _). Qed.

Lemma probe_first directory cs i c :
  cs !! i = Some c →
  fileExists W (joinPath W [directory; c]) = true →
  (∀ j c', (j < i)%nat → cs !! j = Some c' →
     fileExists W (joinPath W [directory; c']) = false) →
  probe W directory cs = Some (joinPath W [directory; c]).
Proof.
  revert i. induction cs as [|c0 cs IH]; intros i Hi Hc Hbefore; [done|].
  rewrite probe_cons. destruct i as [|i]; simpl in Hi.
  - injection Hi as ->. by rewrite Hc.
  - rewrite (Hbefore 0%nat c0); [|lia|done].
    apply (IH i); [done..|]. intros j c' Hj Hc'.
    apply (Hbefore (S j)); [lia|done].
Qed.

Lemma probe_none directory cs :
  (∀ c, c ∈ cs → fileExists W (joinPath W [directory; c]) = false) →
  probe W directory cs = None.
Proof.
  induction cs as [|c0 cs IH]; intros Hall; [done|].
  rewrite probe_cons, Hall by apply list_elem_of_here.
  apply IH. intros c Hc. apply Hall. by apply list_elem_of_further.
Qed.

Lemma probe_selects_existing directory cs p :
  probe W directory cs = Some p →
  ∃ i c, cs !! i = Some c ∧ p = joinPath W [directory; c]
    ∧ fileExists W p = true
    ∧ ∀ j c', (j < i)%nat → cs !! j = Some c' →
        fileExists W (joinPath W [directory; c']) = false.
Proof.
  induction cs as [|c0 cs IH]; [done|]. rewrite probe_cons.
  destruct (fileExists W (joinPath W [directory; c0])) eqn:Hc0.
  - intros [= <-]. exists 0%nat, c0. repeat split; [done|]. intros j c' Hj. lia.
  - intros (i & c & Hi & -> & Hc & Hbefore)%IH. exists (S i), c.
    repeat split; [done..|]. intros [|j] c' Hj Hc'.
    + simpl in Hc'. by injection Hc' as <-.
    + apply (Hbefore j); [lia|done].
Qed.

(** C1, as the code has it: a specification with a single entry point is
    probed in the order src/index.js, index.js, src/index.jsx, index.jsx,
    src/index.ts, index.ts, src/index.tsx, index.tsx. The first candidate that
    exists is returned, and the policy is not consulted; with index.js and
    src/index.ts present and src/index.js absent, the top-level index.js is
    returned; when no candidate exists the policy function is called with the
    extension directory as path, and the entry path stays unset. *)
Theorem findEntryPath_single_entry (this : AppLoader) (directory : string)
    (specification : ExtensionSpecification) (errors : AppErrors.t) :
  singleEntryPath specification = true →
  single_entry_candidates =
    ["src/index.js"; "index.js"; "src/index.jsx"; "index.jsx";
     "src/index.ts"; "index.ts"; "src/index.tsx"; "index.tsx"]
  ∧ (∀ i c,
       single_entry_candidates !! i = Some c →
       fileExists W (joinPath W [directory; c]) = true →
       (∀ j c', (j < i)%nat → single_entry_candidates !! j = Some c' →
          fileExists W (joinPath W [directory; c']) = false) →
       joinPath W [directory; c] ≠ "" →
       findEntryPath W this directory specification errors
       = (inr (Some (joinPath W [directory; c])), errors))
  ∧ (fileExists W (joinPath W [directory; "index.js"]) = true →
     fileExists W (joinPath W [directory; "src/index.ts"]) = true →
     fileExists W (joinPath W [directory; "src/index.js"]) = false →
     joinPath W [directory; "index.js"] ≠ "" →
     findEntryPath W this directory specification errors
     = (inr (Some (joinPath W [directory; "index.js"])), errors))
  ∧ ((∀ c, c ∈ single_entry_candidates →
        fileExists W (joinPath W [directory; c]) = false) →
     findEntryPath W this directory specification errors
     = (abortOrReport this unit (findEntryPath_message W directory) tt directory
        ≫= λ _, ret None) errors).
Proof.
  intros Hsingle.
  assert (Hfirst : ∀ i c,
       single_entry_candidates !! i = Some c →
       fileExists W (joinPath W [directory; c]) = true →
       (∀ j c', (j < i)%nat → single_entry_candidates !! j = Some c' →
          fileExists W (joinPath W [directory; c']) = false) →
       joinPath W [directory; c] ≠ "" →
       findEntryPath W this directory specification errors
       = (inr (Some (joinPath W [directory; c])), errors)).
  { intros i c Hi Hc Hbefore Hne. unfold findEntryPath. rewrite Hsingle.
    rewrite (probe_first directory _ i c Hi Hc Hbefore). simpl.
    destruct (String.eqb_spec (joinPath W [directory; c]) ""); [done|].
    reflexivity. }
  split; [reflexivity|]. split; [exact Hfirst|]. split.
  - intros Hjs Hts Hsrcjs Hne.
    apply (Hfirst 1%nat "index.js"); [done..| |done].
    intros [|j] c' Hj Hc'; [|lia]. simpl in Hc'. by injection Hc' as <-.
  - intros Hnone. unfold findEntryPath. rewrite Hsingle.
    by rewrite (probe_none directory _ Hnone).
Qed.

End entry_points.

Lemma findEntryPath_single_entry_witness :
  findEntryPath world_js_and_ts report_loader "/app/ext" ui_specification ∅
  = (inr (Some "/app/ext/index.js"), ∅).
Proof.
  apply (findEntryPath_single_entry world_js_and_ts report_loader "/app/ext"
           ui_specification ∅); reflexivity || done.
Defined.

(** C1 as documented fails: with index.js and src/index.js both present the
    documented order selects index.js, the loader returns src/index.js. *)
Lemma findEntryPath_documented_order_fails :
  singleEntryPath ui_specification = true
  ∧ fileExists world_two_entries "/app/ext/index.js" = true
  ∧ fileExists world_two_entries "/app/ext/src/index.js" = true
  ∧ probe world_two_entries "/app/ext" documented_candidates
    = Some "/app/ext/index.js"
  ∧ findEntryPath world_two_entries report_loader "/app/ext" ui_specification ∅
    = (inr (Some "/app/ext/src/index.js"), ∅)
  ∧ (findEntryPath world_two_entries report_loader "/app/ext" ui_specification ∅).1
    ≠ inr (probe world_two_entries "/app/ext" documented_candidates).
Proof. repeat split; try reflexivity. vm_compute. discriminate. Qed.

(** ** Regular expressions *)

Lemma append_nil_l (s : string) : "" +:+ s = s.
Proof. reflexivity. Qed.

Lemma append_cons c (s t : string) : String c s +:+ t = String c (s +:+ t).
Proof. reflexivity. Qed.

Lemma append_nil_r (s : string) : s +:+ "" = s.
Proof. induction s as [|c s IH]; [done|]. by rewrite append_cons, IH. Qed.

Lemma append_assoc (s1 s2 s3 : string) : (s1 +:+ s2) +:+ s3 = s1 +:+ s2 +:+ s3.
Proof. induction s1 as [|c s1 IH]; [done|]. by rewrite !append_cons, IH. Qed.

Lemma append_eq_nil (s1 s2 : string) : s1 +:+ s2 = "" → s1 = "" ∧ s2 = "".
Proof. destruct s1; [done|]. rewrite append_cons. discriminate. Qed.

Lemma append_eq_cons (s1 s2 : string) c s :
  s1 +:+ s2 = String c s →
  (s1 = "" ∧ s2 = String c s) ∨ ∃ s1', s1 = String c s1' ∧ s = s1' +:+ s2.
Proof.
  destruct s1 as [|c1 s1]; [by left|]. rewrite append_cons.
  intros [= -> <-]. right. by exists s1.
Qed.

Lemma nullable_lang (r : regex) : nullable r = true ↔ lang r "".
Proof.
  split.
  - induction r as [| |p|r1 IH1 r2 IH2|r1 IH1 r2 IH2|r IH]; simpl; intros Hn.
    + discriminate.
    + constructor.
    + discriminate.
    + apply andb_true_iff in Hn as [H1 H2].
      rewrite <- (append_nil_l ""). constructor; auto.
    + apply orb_true_iff in Hn as [H1|H2]; [apply lang_alt_l|apply lang_alt_r]; auto.
    + constructor.
  - intros Hl. remember "" as s eqn:Hs.
    induction Hl as [|p c Hp|r1 r2 s1 s2 H1 IH1 H2 IH2|r1 r2 s H IH|r1 r2 s H IH
                    |r|r s1 s2 H1 IH1 H2 IH2]; simpl; try done.
    + apply append_eq_nil in Hs as [-> ->]. by rewrite IH1, IH2.
    + by rewrite IH.
    + rewrite IH by done. apply orb_true_r.
Qed.

Lemma lang_star_cons_inv (r : regex) c s :
  lang (Star r) (String c s) →
  ∃ s1 s2, s = s1 +:+ s2 ∧ lang r (String c s1) ∧ lang (Star r) s2.
Proof.
  intros Hl. remember (Star r) as r' eqn:Hr. remember (String c s) as cs eqn:Hcs.
  induction Hl as [| | | | | |r0 s1 s2 H1 _ H2 IH2]; try discriminate.
  injection Hr as ->.
  apply append_eq_cons in Hcs as [[-> ->]|(s1' & -> & ->)].
  - by apply IH2.
  - by exists s1', s2.
Qed.

Local Ltac invert_lang :=
  match goal with
  | H : lang Never _ |- _ => inversion H
  | H : lang Eps _ |- _ => inversion H; clear H; subst
  | H : lang (Class _) _ |- _ => inversion H; clear H; subst
  | H : lang (Seq _ _) _ |- _ => inversion H; clear H; subst
  | H : lang (Alt _ _) _ |- _ => inversion H; clear H; subst
  end.

Local Ltac split_append :=
  match goal with
  | H : _ +:+ _ = String _ _ |- _ =>
      apply append_eq_cons in H as [[-> ->]|(? & -> & ->)]
  | H : _ +:+ _ = "" |- _ => apply append_eq_nil in H as [-> ->]
  end.

Lemma deriv_lang c (r : regex) s : lang (deriv c r) s ↔ lang r (String c s).
Proof.
  revert s. induction r as [| |p|r1 IH1 r2 IH2|r1 IH1 r2 IH2|r IH]; intros s; simpl.
  - split; intros; invert_lang.
  - split; intros; invert_lang.
  - destruct (p c) eqn:Hp; split; intros; invert_lang;
      [by constructor|constructor|congruence].
  - assert (Hseq : ∀ t, lang (Seq (deriv c r1) r2) t → lang (Seq r1 r2) (String c t)).
    { intros t Ht. invert_lang. rewrite <- append_cons.
      constructor; [by apply IH1|done]. }
    destruct (nullable r1) eqn:Hn; split; intros Hl.
    + invert_lang; [by apply Hseq|].
      rewrite <- (append_nil_l (String c s)).
      constructor; [by apply nullable_lang|by apply IH2].
    + invert_lang. split_append.
      * apply lang_alt_r. by apply IH2.
      * apply lang_alt_l. constructor; [by apply IH1|done].
    + by apply Hseq.
    + invert_lang. split_append.
      * match goal with H : lang r1 "" |- _ => apply nullable_lang in H end.
        congruence.
      * constructor; [by apply IH1|done].
  - split; intros; invert_lang;
      [apply lang_alt_l; by apply IH1|apply lang_alt_r; by apply IH2
      |apply lang_alt_l; by apply IH1|apply lang_alt_r; by apply IH2].
  - split.
    + intros Hl. invert_lang. rewrite <- append_cons.
      constructor; [by apply IH|done].
    + intros (t1 & t2 & -> & Ht1 & Ht2)%lang_star_cons_inv.
      constructor; [by apply IH|done].
Qed.

(** The matcher decides membership in the language. *)
Lemma regex_test_lang (r : regex) (s : string) : regex_test r s = true ↔ lang r s.
Proof.
  revert r. induction s as [|c s IH]; intros r; simpl.
  - apply nullable_lang.
  - rewrite IH. apply deriv_lang.
Qed.

Lemma lang_seq_inv (r1 r2 : regex) s :
  lang (Seq r1 r2) s ↔ ∃ s1 s2, s = s1 +:+ s2 ∧ lang r1 s1 ∧ lang r2 s2.
Proof.
  split.
  - intros Hl. invert_lang. eauto.
  - intros (s1 & s2 & -> & H1 & H2). by constructor.
Qed.

Lemma lang_Chr c s : lang (Chr c) s ↔ s = String c "".
Proof.
  unfold Chr. split.
  - intros Hl. invert_lang.
    match goal with H : Ascii.eqb _ _ = true |- _ => apply Ascii.eqb_eq in H end.
    by subst.
  - intros ->. constructor. apply Ascii.eqb_refl.
Qed.

Lemma lang_Lit (l s : string) : lang (Lit l) s ↔ s = l.
Proof.
  revert s. induction l as [|c l IH]; intros s; simpl.
  - split; [intros; by invert_lang|intros ->; constructor].
  - rewrite lang_seq_inv. split.
    + intros (s1 & s2 & -> & ->%lang_Chr & ->%IH). reflexivity.
    + intros ->. exists (String c ""), l. by rewrite lang_Chr, IH.
Qed.

Lemma lang_star_class p s : lang (Star (Class p)) s ↔ all_chars p s = true.
Proof.
  split.
  - induction s as [|c s IH]; [done|].
    intros (s1 & s2 & -> & H1 & H2)%lang_star_cons_inv.
    invert_lang. simpl.
    match goal with H : p _ = true |- _ => rewrite H end.
    by apply IH.
  - induction s as [|c s IH]; simpl; [constructor|].
    intros [Hc Hs]%andb_true_iff.
    change (String c s) with (String c "" +:+ s).
    constructor; [by constructor|by apply IH].
Qed.

Lemma lang_plus_class p s :
  lang (Plus (Class p)) s ↔ s ≠ "" ∧ all_chars p s = true.
Proof.
  unfold Plus. rewrite lang_seq_inv. split.
  - intros (s1 & s2 & -> & H1 & H2%lang_star_class). invert_lang.
    split; [done|]. simpl.
    match goal with H : p _ = true |- _ => by rewrite H end.
  - intros [Hne Hall]. destruct s as [|c s]; [done|]. simpl in Hall.
    apply andb_true_iff in Hall as [Hc Hs].
    exists (String c ""), s. split; [done|].
    split; [by constructor|by apply lang_star_class].
Qed.

Lemma all_chars_app p (s t : string) :
  all_chars p (s +:+ t) = all_chars p s && all_chars p t.
Proof.
  induction s as [|c s IH]; [done|].
  rewrite append_cons. simpl. by rewrite IH, andb_assoc.
Qed.

(** The strings that [validFileRegex] accepts. *)
Lemma validFileRegex_accepts (s : string) :
  regex_test validFileRegex s = true ↔
    s = "shopify.app.toml"
    ∨ ∃ w, w ≠ "" ∧ all_chars hyphen_or_word w = true
        ∧ s = "shopify.app." +:+ w +:+ ".toml".
Proof.
  rewrite regex_test_lang. unfold validFileRegex, Opt.
  rewrite !lang_seq_inv. split.
  - intros (s1 & t1 & -> & ->%lang_Lit & H1).
    apply lang_seq_inv in H1 as (s2 & t2 & -> & ->%lang_Chr & H2).
    apply lang_seq_inv in H2 as (s3 & t3 & -> & ->%lang_Lit & H3).
    apply lang_seq_inv in H3 as (s4 & t4 & -> & Hopt & H4).
    apply lang_seq_inv in H4 as (s5 & t5 & -> & ->%lang_Chr & ->%lang_Lit).
    invert_lang.
    + match goal with H : lang (Seq _ _) _ |- _ =>
        apply lang_seq_inv in H as (d & w & -> & ->%lang_Chr & [Hne Hw]%lang_plus_class)
      end.
      right. exists w. done.
    + invert_lang. by left.
  - intros [->|(w & Hne & Hw & ->)].
    + exists "shopify", ".app.toml". split; [done|]. split; [by apply lang_Lit|].
      apply lang_seq_inv. exists ".", "app.toml".
      split; [done|]. split; [by apply lang_Chr|].
      apply lang_seq_inv. exists "app", ".toml".
      split; [done|]. split; [by apply lang_Lit|].
      apply lang_seq_inv. exists "", ".toml".
      split; [done|]. split; [apply lang_alt_r; constructor|].
      apply lang_seq_inv. exists ".", "toml".
      split; [done|]. split; [by apply lang_Chr|by apply lang_Lit].
    + exists "shopify", ("." +:+ "app" +:+ ("." +:+ w) +:+ ".toml").
      split; [done|]. split; [by apply lang_Lit|].
      apply lang_seq_inv. exists ".", ("app" +:+ ("." +:+ w) +:+ ".toml").
      split; [done|]. split; [by apply lang_Chr|].
      apply lang_seq_inv. exists "app", (("." +:+ w) +:+ ".toml").
      split; [done|]. split; [by apply lang_Lit|].
      apply lang_seq_inv. exists ("." +:+ w), ".toml".
      split; [done|]. split.
      * apply lang_alt_l. apply lang_seq_inv. exists ".", w.
        split; [done|]. split; [by apply lang_Chr|by apply lang_plus_class].
      * apply lang_seq_inv. exists ".", "toml".
        split; [done|]. split; [by apply lang_Chr|by apply lang_Lit].
Qed.

(** A name made of word characters and hyphens is not itself a file name. *)
Lemma validFileRegex_rejects_names (w : string) :
  all_chars hyphen_or_word w = true → regex_test validFileRegex w = false.
Proof.
  intros Hw. destruct (regex_test validFileRegex w) eqn:Ht; [|done].
  apply validFileRegex_accepts in Ht as [->|(w' & _ & _ & ->)].
  - vm_compute in Hw. discriminate.
  - rewrite all_chars_app in Hw. apply andb_true_iff in Hw as [Hw _].
    vm_compute in Hw. discriminate.
Qed.

(** ** getAppConfigurationFileName *)

(** C7: a configuration name of the form shopify.app.<discriminator>.toml,
    the discriminator a non-empty run of word characters and hyphens, is
    returned unchanged, so the function applied to its own output returns that
    output; and the variant named by the discriminator alone is given exactly
    this file name. *)
Theorem getAppConfigurationFileName_round_trip (app discriminator : string) :
  discriminator ≠ "" →
  all_chars hyphen_or_word discriminator = true →
  let name := "shopify.app." +:+ discriminator +:+ ".toml" in
  getAppConfigurationFileName app (Some name) = name
  ∧ getAppConfigurationFileName app
      (Some (getAppConfigurationFileName app (Some name)))
    = getAppConfigurationFileName app (Some name)
  ∧ getAppConfigurationFileName app (Some discriminator) = name.
Proof.
  intros Hne Hdisc name.
  assert (Hname : getAppConfigurationFileName app (Some name) = name).
  { unfold getAppConfigurationFileName.
    assert (Htest : regex_test validFileRegex name = true).
    { apply validFileRegex_accepts. right. by exists discriminator. }
    rewrite Htest. reflexivity. }
  split; [done|]. split; [by rewrite !Hname|].
  unfold getAppConfigurationFileName.
  rewrite (validFileRegex_rejects_names _ Hdisc).
  by destruct (String.eqb_spec discriminator "").
Qed.

Lemma getAppConfigurationFileName_round_trip_witness :
  getAppConfigurationFileName "shopify.app.toml" (Some "shopify.app.staging-2.toml")
  = "shopify.app.staging-2.toml"
  ∧ getAppConfigurationFileName "shopify.app.toml"
      (Some (getAppConfigurationFileName "shopify.app.toml"
               (Some "shopify.app.staging-2.toml")))
    = getAppConfigurationFileName "shopify.app.toml"
        (Some "shopify.app.staging-2.toml")
  ∧ getAppConfigurationFileName "shopify.app.toml" (Some "staging-2")
    = "shopify.app.staging-2.toml".
Proof.
  apply (getAppConfigurationFileName_round_trip "shopify.app.toml" "staging-2");
    [discriminate|reflexivity].
Defined.

(** ** Configuration files *)

Section parsing.

Context (W : World).

Lemma loadConfigurationFile_missing filepath (policy : AbortOrReport) decode :
  fileExists W filepath = false →
  loadConfigurationFile W filepath policy decode
  = policy jsval (missing_file_message filepath) (JStr "") filepath.
Proof. intros Hmissing. unfold loadConfigurationFile. by rewrite Hmissing. Qed.

Lemma loadConfigurationFile_caught filepath (policy : AbortOrReport) decode e :
  fileExists W filepath = true →
  decoding_fails W filepath decode e →
  loadConfigurationFile W filepath policy decode
  = if position_truthy e
    then policy jsval (decode_error_message filepath e) JNull filepath
    else throw (OtherError e).
Proof.
  intros Hexists Hfails. unfold loadConfigurationFile. rewrite Hexists. simpl.
  by destruct Hfails as [->|(content & -> & ->)].
Qed.

Lemma loadConfigurationFile_decoded filepath (policy : AbortOrReport) decode
    content document :
  fileExists W filepath = true →
  readFile W filepath = inr content →
  decode content = inr document →
  loadConfigurationFile W filepath policy decode = ret document.
Proof.
  intros Hexists Hread Hdecode. unfold loadConfigurationFile.
  by rewrite Hexists, Hread, Hdecode.
Qed.

(** Decode errors that are handled as documented: a decode error whose [line],
    [pos] and [col] are all non-zero goes through the policy with a message
    that embeds the decode message; an error that lacks one of the three
    properties is thrown again unchanged, whatever the mode. *)
Lemma loadConfigurationFile_decode_error (this : AppLoader) filepath decode e errors :
  fileExists W filepath = true →
  decoding_fails W filepath decode e →
  (position_truthy e = true →
     loadConfigurationFile W filepath (abortOrReport this) decode errors
     = abortOrReport this jsval (decode_error_message filepath e) JNull filepath errors
     ∧ In (text (err_message e)) (decode_error_message filepath e))
  ∧ (has_position e = false →
     loadConfigurationFile W filepath (abortOrReport this) decode errors
     = (inl (OtherError e), errors)).
Proof.
  intros Hexists Hfails.
  rewrite (loadConfigurationFile_caught _ _ _ _ Hexists Hfails). split.
  - intros ->. split; [done|]. simpl. tauto.
  - intros Hnone. replace (position_truthy e) with false; [done|].
    unfold has_position, position_truthy in *.
    destruct (err_line e), (err_pos e), (err_col e); simpl in *;
      try done; by rewrite ?andb_false_r.
Qed.

(** A decode error positioned at line, offset or column zero is thrown again,
    in report mode too, without any diagnostic being recorded. *)
Lemma loadConfigurationFile_zero_position (this : AppLoader) filepath decode e errors :
  fileExists W filepath = true →
  decoding_fails W filepath decode e →
  err_line e = Some 0%Z ∨ err_pos e = Some 0%Z ∨ err_col e = Some 0%Z →
  loadConfigurationFile W filepath (abortOrReport this) decode errors
  = (inl (OtherError e), errors).
Proof.
  intros Hexists Hfails Hzero.
  rewrite (loadConfigurationFile_caught _ _ _ _ Hexists Hfails).
  replace (position_truthy e) with false; [done|].
  unfold position_truthy.
  destruct Hzero as [->|[->| ->]]; simpl; by rewrite ?andb_false_r.
Qed.

End parsing.

(** C5 at its failing input: the decoder rejects the first line of the root
    configuration with an error that carries line 0, offset 0 and column 0;
    the error has its three position properties, yet in report mode it is
    thrown again instead of going through the policy, and nothing is
    recorded. *)
Theorem loadConfigurationFile_first_line_error :
  decoding_fails world_malformed "/app/shopify.app.toml"
    (decodeToml world_malformed) first_line_error
  ∧ has_position first_line_error = true
  ∧ loadConfigurationFile world_malformed "/app/shopify.app.toml"
      (abortOrReport report_loader) (decodeToml world_malformed) ∅
    = (inl (OtherError first_line_error), ∅)
  ∧ loadConfigurationFile world_malformed "/app/shopify.app.toml"
      (abortOrReport report_loader) (decodeToml world_malformed) ∅
    ≠ abortOrReport report_loader jsval
        (decode_error_message "/app/shopify.app.toml" first_line_error) JNull
        "/app/shopify.app.toml" ∅.
Proof.
  split; [right; by exists "= 1"|]. split; [reflexivity|].
  split; [reflexivity|]. vm_compute. discriminate.
Qed.

Lemma loadConfigurationFile_truthy (W : World) (this : AppLoader) (filepath : string)
    (decode : string → js_error + jsval) errors document errors' :
  mode this = report →
  loadConfigurationFile W filepath (abortOrReport this) decode errors
  = (inr document, errors') →
  truthy document = true →
  errors' = errors
  ∧ ∃ content,
      fileExists W filepath = true
      ∧ readFile W filepath = inr content
      ∧ decode content = inr document.
Proof.
  intros Hreport. unfold loadConfigurationFile, abortOrReport. rewrite Hreport.
  destruct (fileExists W filepath); simpl; [|by intros [= <- _]].
  destruct (readFile W filepath) as [e|content].
  - destruct (_ && _); [by intros [= <- _]|discriminate].
  - destruct (decode content) as [e|decoded] eqn:Hdecode.
    + destruct (_ && _); [by intros [= <- _]|discriminate].
    + intros [= <- <-] _. split; [done|]. by exists content.
Qed.

(** C9, as the code has it: in report mode [parseConfigurationFile] never
    returns the placeholders of [loadConfigurationFile] (the empty string,
    [null]): a returned value is the empty object or the data that the schema
    produced from the truthy decoded document, so it is [null] or [undefined]
    only if the schema's own data is. When the file is missing, or its
    content fails to decode with an error that is routed through the policy
    (its [line], [pos] and [col] all non-zero), the empty object is returned
    and the diagnostic is recorded; and whenever the loaded document is falsy
    the result is the empty object for every schema, so the schema validator
    has no say on it. *)
Theorem parseConfigurationFile_report_fallback (W : World) (this : AppLoader)
    (schema : ZodSchema) (filepath : string) (decode : string → js_error + jsval)
    (errors : AppErrors.t) :
  mode this = report →
  (∀ result errors',
     parseConfigurationFile W schema filepath (abortOrReport this) decode errors
     = (inr result, errors') →
     result = JObj []
     ∨ ∃ content document,
         fileExists W filepath = true
         ∧ readFile W filepath = inr content
         ∧ decode content = inr document
         ∧ truthy document = true
         ∧ safeParse schema document = parse_success result)
  ∧ ((∀ document data,
        truthy document = true → safeParse schema document = parse_success data →
        nullish data = false) →
     ∀ result errors',
       parseConfigurationFile W schema filepath (abortOrReport this) decode errors
       = (inr result, errors') →
       nullish result = false)
  ∧ (fileExists W filepath = false →
     parseConfigurationFile W schema filepath (abortOrReport this) decode errors
     = (inr (JObj []),
        AppErrors.addError filepath (missing_file_message filepath) errors))
  ∧ (∀ e,
     fileExists W filepath = true → decoding_fails W filepath decode e →
     position_truthy e = true →
     parseConfigurationFile W schema filepath (abortOrReport this) decode errors
     = (inr (JObj []),
        AppErrors.addError filepath (decode_error_message filepath e) errors))
  ∧ (∀ document errors',
     loadConfigurationFile W filepath (abortOrReport this) decode errors
     = (inr document, errors') →
     truthy document = false →
     ∀ schema' : ZodSchema,
       parseConfigurationFile W schema' filepath (abortOrReport this) decode errors
       = (inr (JObj []), errors')).
Proof.
  intros Hreport.
  assert (Hfalsy : ∀ document errors',
     loadConfigurationFile W filepath (abortOrReport this) decode errors
     = (inr document, errors') →
     truthy document = false →
     ∀ schema' : ZodSchema,
       parseConfigurationFile W schema' filepath (abortOrReport this) decode errors
       = (inr (JObj []), errors')).
  { intros document errors' Hload Hfalse schema'. unfold parseConfigurationFile.
    rewrite (bind_step _ _ _ _ _ Hload). by rewrite Hfalse. }
  assert (Hreturned : ∀ result errors',
     parseConfigurationFile W schema filepath (abortOrReport this) decode errors
     = (inr result, errors') →
     result = JObj []
     ∨ ∃ content document,
         fileExists W filepath = true
         ∧ readFile W filepath = inr content
         ∧ decode content = inr document
         ∧ truthy document = true
         ∧ safeParse schema document = parse_success result).
  { intros result errors' Hparse. unfold parseConfigurationFile in Hparse.
    apply bind_returns in Hparse as (document & errors1 & Hload & Hrest).
    destruct (truthy document) eqn:Htruthy; simpl in Hrest.
    - destruct (safeParse schema document) as [data|issues] eqn:Hsafe.
      + injection Hrest as <- <-. right.
        destruct (loadConfigurationFile_truthy _ _ _ _ _ _ _ Hreport Hload Htruthy)
          as (_ & content & Hexists & Hread & Hdecode).
        by exists content, document.
      + unfold abortOrReport in Hrest. rewrite Hreport in Hrest.
        injection Hrest as <- <-. by left.
    - injection Hrest as <- <-. by left. }
  split; [exact Hreturned|]. split; [|split; [|split; [|exact Hfalsy]]].
  - intros Hschema result errors' Hparse.
    destruct (Hreturned _ _ Hparse)
      as [->|(content & document & _ & _ & _ & Htruthy & Hsafe)]; [done|].
    by apply (Hschema document).
  - intros Hmissing. apply (Hfalsy (JStr "")); [|done].
    rewrite loadConfigurationFile_missing by done.
    unfold abortOrReport. by rewrite Hreport.
  - intros e Hexists Hfails Hposition. apply (Hfalsy JNull); [|done].
    rewrite (loadConfigurationFile_caught _ _ _ _ _ Hexists Hfails), Hposition.
    unfold abortOrReport. by rewrite Hreport.
Qed.

Lemma parseConfigurationFile_report_fallback_witness :
  parseConfigurationFile world_malformed any_schema "/app/web/shopify.web.toml"
    (abortOrReport report_loader) (decodeToml world_malformed) ∅
  = (inr (JObj []),
     AppErrors.addError "/app/web/shopify.web.toml"
       (decode_error_message "/app/web/shopify.web.toml" third_line_error) ∅).
Proof.
  destruct (parseConfigurationFile_report_fallback world_malformed report_loader
              any_schema "/app/web/shopify.web.toml" (decodeToml world_malformed) ∅
              eq_refl) as (_ & _ & _ & Hdecode & _).
  apply Hdecode; [reflexivity| |reflexivity]. right. by exists "a = [".
Defined.

(** C9 as stated fails: with a schema whose parsed data is [null], a
    configuration file that exists and decodes to a truthy document makes
    [parseConfigurationFile] return [null] in report mode. *)
Lemma parseConfigurationFile_returns_null :
  mode report_loader = report
  ∧ fileExists world_plain "/app/shopify.app.toml" = true
  ∧ parseConfigurationFile world_plain null_schema "/app/shopify.app.toml"
      (abortOrReport report_loader) (decodeToml world_plain) ∅
    = (inr JNull, ∅)
  ∧ nullish JNull = true.
Proof. repeat split. Qed.

(** ** Specification lookup *)

(** C8: when the extension configuration file cannot be read or decoded, or
    the decoded document fails the minimal type shape, specification lookup
    throws that error whatever policy function it was given, strict or report:
    the policy is not consulted and the error set is left as it was. *)
Theorem findSpecificationForConfig_throws_before_policy (W : World)
    (specifications : list ExtensionSpecification) (configurationPath : string)
    (policy : AbortOrReport) (errors : AppErrors.t) (e : js_error) :
  decoding_fails W configurationPath (decodeToml W) e
  ∨ (∃ fileContent obj,
       readFile W configurationPath = inr fileContent
       ∧ decodeToml W fileContent = inr obj
       ∧ TypeSchema_parse W obj = inl e) →
  findSpecificationForConfig W specifications configurationPath policy errors
  = (inl (OtherError e), errors).
Proof.
  unfold findSpecificationForConfig.
  intros [[Hread|(content & Hread & Hdecode)]|(content & obj & Hread & Hdecode & Htype)];
    rewrite bind_run, Hread; simpl; [done| |].
  - rewrite bind_run, Hdecode. done.
  - rewrite bind_run, Hdecode. simpl. rewrite bind_run, Htype. done.
Qed.

Lemma findSpecificationForConfig_throws_before_policy_witness :
  findSpecificationForConfig world_malformed [ui_specification]
    "/app/extensions/b/b.extension.toml" (abortOrReport report_loader) ∅
  = (inl (OtherError (mk_js_error "ZodError" None None None)), ∅)
  ∧ findSpecificationForConfig world_malformed [ui_specification]
      "/app/extensions/a/a.extension.toml" (abortOrReport report_loader) ∅
    = (inl (OtherError third_line_error), ∅).
Proof.
  split.
  - apply (findSpecificationForConfig_throws_before_policy world_malformed).
    right. exists "name = 'no type'", (JObj [("name", JStr "no type")]). done.
  - apply (findSpecificationForConfig_throws_before_policy world_malformed).
    left. right. by exists "a = [".
Defined.

(** ** Webs *)

Section webs.

Context (W : World).

(** Validation of one role, then of the two roles, in report mode. *)
Lemma validateWebs_report (this : AppLoader) (webs : list Web) (errors : AppErrors.t) :
  mode this = report →
  validateWebs W this webs errors
  = (inr tt, record_conflict W webs Frontend (record_conflict W webs Backend errors)).
Proof.
  intros Hreport. unfold validateWebs, record_conflict, abortOrReport. simpl.
  rewrite Hreport. fold (websOfType webs Backend). fold (websOfType webs Frontend).
  rewrite bind_run.
  destruct (websOfType webs Backend) as [|b1 [|b2 brest]]; simpl;
    rewrite bind_run;
    by destruct (websOfType webs Frontend) as [|f1 [|f2 frest]].
Qed.

Lemma validateWebs_strict (this : AppLoader) (webs : list Web) (errors : AppErrors.t)
    first second rest :
  mode this = strict →
  websOfType webs Backend = first :: second :: rest →
  validateWebs W this webs errors
  = (inl (AbortError (role_conflict_message Backend)), errors).
Proof.
  intros Hstrict Hbackend. unfold validateWebs, abortOrReport. simpl.
  rewrite Hstrict. fold (websOfType webs Backend). by rewrite bind_run, Hbackend.
Qed.

Lemma role_conflict_message_inj (a b : WebType) :
  role_conflict_message a = role_conflict_message b → a = b.
Proof. by destruct a, b. Qed.

(** C3, as the code has it: when two or more of the resolved webs declare the
    backend role, report mode stores the backend role-conflict message under
    the configuration path of the second of them, then does the same for the
    frontend role, and returns every resolved web. In the resulting error set
    the backend message is found under that path provided the frontend
    conflict, if there is one, is reported under a different path (a path holds
    one message, the later one); no other path receives the backend message.
    In strict mode the conflict is thrown as a fatal error. *)
Theorem loadWebs_backend_conflict (this : AppLoader) (appDirectory : string)
    (webDirectories : option (list string)) (errors0 errors : AppErrors.t)
    (webs : list Web) (first second : Web) (rest : list Web) :
  mapM (loadWeb W this) (webTomlPaths W appDirectory webDirectories) errors0
  = (inr webs, errors) →
  websOfType webs Backend = first :: second :: rest →
  match mode this with
  | strict =>
      loadWebs W this appDirectory webDirectories errors0
      = (inl (AbortError (role_conflict_message Backend)), errors)
  | report =>
      ∃ usedCustomLayout errors',
        loadWebs W this appDirectory webDirectories errors0
        = (inr (webs, usedCustomLayout), errors')
        ∧ errors'
          = record_conflict W webs Frontend
              (AppErrors.addError (conflict_path W second)
                 (role_conflict_message Backend) errors)
        ∧ ((∀ f1 f2 frest, websOfType webs Frontend = f1 :: f2 :: frest →
              conflict_path W f2 ≠ conflict_path W second) →
           AppErrors.getError (conflict_path W second) errors'
           = Some (role_conflict_message Backend))
        ∧ (∀ path, path ≠ conflict_path W second →
             AppErrors.getError path errors' = Some (role_conflict_message Backend) →
             AppErrors.getError path errors = Some (role_conflict_message Backend))
  end.
Proof.
  intros Hwebs Hbackend. unfold loadWebs. fold (webTomlPaths W appDirectory webDirectories).
  rewrite (bind_step _ _ _ _ _ Hwebs).
  destruct (mode this) eqn:Hmode.
  - by rewrite bind_run, (validateWebs_strict _ _ _ _ _ _ Hmode Hbackend).
  - rewrite bind_run, (validateWebs_report _ _ _ Hmode).
    eexists _, _. split; [reflexivity|].
    assert (Hstep : record_conflict W webs Backend errors
                    = AppErrors.addError (conflict_path W second)
                        (role_conflict_message Backend) errors)
      by (unfold record_conflict; by rewrite Hbackend).
    rewrite Hstep. split; [reflexivity|].
    unfold record_conflict, AppErrors.getError, AppErrors.addError.
    destruct (websOfType webs Frontend) as [|f1 [|f2 frest]] eqn:Hfrontend.
    + split; [intros _; apply lookup_insert_eq|].
      intros path Hpath. by rewrite lookup_insert_ne.
    + split; [intros _; apply lookup_insert_eq|].
      intros path Hpath. by rewrite lookup_insert_ne.
    + split.
      * intros Hdistinct. rewrite lookup_insert_ne by (by apply (Hdistinct f1 f2 frest)).
        apply lookup_insert_eq.
      * intros path Hpath. rewrite lookup_insert.
        case_decide as Hf2; [intros [= Hmsg]; by apply role_conflict_message_inj in Hmsg|].
        by rewrite lookup_insert_ne.
Qed.

End webs.

Lemma loadWebs_backend_conflict_witness :
  (∃ usedCustomLayout errors',
     loadWebs world_two_backends report_loader "/app" None ∅
     = (inr ([backend_web "/app/web/a"; backend_web "/app/web/b"], usedCustomLayout),
        errors')
     ∧ AppErrors.getError "/app/web/b/shopify.web.toml" errors'
       = Some (role_conflict_message Backend))
  ∧ loadWebs world_two_backends strict_loader "/app" None ∅
    = (inl (AbortError (role_conflict_message Backend)), ∅).
Proof.
  split; [|exact (loadWebs_backend_conflict world_two_backends strict_loader "/app" None
                    ∅ ∅ [backend_web "/app/web/a"; backend_web "/app/web/b"]
                    (backend_web "/app/web/a") (backend_web "/app/web/b") []
                    eq_refl eq_refl)].
  pose proof (loadWebs_backend_conflict world_two_backends report_loader "/app" None
                ∅ ∅ [backend_web "/app/web/a"; backend_web "/app/web/b"]
                (backend_web "/app/web/a") (backend_web "/app/web/b") []
                eq_refl eq_refl) as (layout & errors' & Hload & _ & Hkept & _).
  exists layout, errors'. split.
  - exact Hload.
  - apply Hkept. intros f1 f2 frest Hfrontend. discriminate Hfrontend.
Defined.

(** C3 as stated fails: two webs that each declare the frontend and backend
    roles are both returned, but the resulting error set holds the frontend
    message under the second web's path and the backend message nowhere. *)
Lemma loadWebs_backend_diagnostic_overwritten :
  ∃ errors',
    loadWebs world_two_fullstack report_loader "/app" None ∅
    = (inr ([fullstack_web "/app/web/a"; fullstack_web "/app/web/b"], false), errors')
    ∧ websOfType [fullstack_web "/app/web/a"; fullstack_web "/app/web/b"] Backend
      = [fullstack_web "/app/web/a"; fullstack_web "/app/web/b"]
    ∧ conflict_path world_two_fullstack (fullstack_web "/app/web/b")
      = "/app/web/b/shopify.web.toml"
    ∧ AppErrors.getError "/app/web/b/shopify.web.toml" errors'
      = Some (role_conflict_message Frontend)
    ∧ ∀ path,
        AppErrors.getError path errors' ≠ Some (role_conflict_message Backend).
Proof.
  eexists. split; [reflexivity|]. split; [reflexivity|]. split; [reflexivity|].
  split; [reflexivity|]. intros path. unfold AppErrors.getError, AppErrors.addError.
  rewrite lookup_insert. case_decide; [discriminate|].
  rewrite lookup_insert. case_decide; [congruence|]. by rewrite lookup_empty.
Qed.

(** ** The error set only grows *)

Lemma grows_ret {A} (a : A) : grows (ret a).
Proof. intros errors outcome errors' [= _ <-]. done. Qed.

Lemma grows_throw {A} (e : exn) : grows (@throw A e).
Proof. intros errors outcome errors' [= _ <-]. done. Qed.

Lemma grows_call {A} (r : js_error + A) : grows (call r).
Proof. destruct r; [apply grows_throw|apply grows_ret]. Qed.

Lemma grows_bind {A B} (m : Loader A) (k : A → Loader B) :
  grows m → (∀ a, grows (k a)) → grows (m ≫= k).
Proof.
  intros Hm Hk errors outcome errors'. rewrite bind_run.
  destruct (m errors) as [[e|a] errors1] eqn:Hrun.
  - intros [= _ <-]. by apply (Hm _ _ _ Hrun).
  - intros Hrest. etrans; [by apply (Hm _ _ _ Hrun)|by apply (Hk _ _ _ _ Hrest)].
Qed.

Lemma grows_abortOrReport (this : AppLoader) T message (fallback : T) path :
  grows (abortOrReport this T message fallback path).
Proof.
  unfold abortOrReport. destruct (mode this); [apply grows_throw|].
  intros errors outcome errors' [= _ <-]. unfold AppErrors.addError.
  rewrite dom_insert_L. set_solver.
Qed.

Lemma grows_this_errors : grows this_errors.
Proof. intros errors outcome errors' [= _ <-]. done. Qed.

Lemma grows_mapM {A B} (f : A → Loader B) (xs : list A) :
  (∀ x, grows (f x)) → grows (mapM f xs).
Proof.
  intros Hf. induction xs as [|x xs IH]; simpl; [apply grows_ret|].
  apply grows_bind; [done|]. intros y.
  apply grows_bind; [done|]. intros ys. apply grows_ret.
Qed.

Lemma grows_forEach {A} (f : A → Loader unit) (xs : list A) :
  (∀ x, grows (f x)) → grows (forEach f xs).
Proof.
  intros Hf. induction xs as [|x xs IH]; simpl; [apply grows_ret|].
  apply grows_bind; [done|]. by intros [].
Qed.

Create HintDb grows.

#[local] Hint Resolve grows_ret grows_throw grows_call grows_abortOrReport
  grows_this_errors : grows.

Local Ltac grows_step :=
  first
    [ apply grows_bind; [|intros ?]
    | apply grows_mapM; intros ?
    | apply grows_forEach; intros ?
    | solve [auto with grows]
    | case_match ].

Section growth.

Context (W : World) (this : AppLoader).

Lemma grows_loadConfigurationFile filepath decode :
  grows (loadConfigurationFile W filepath (abortOrReport this) decode).
Proof. unfold loadConfigurationFile. repeat grows_step. Qed.

Lemma grows_parseConfigurationFile schema filepath decode :
  grows (parseConfigurationFile W schema filepath (abortOrReport this) decode).
Proof.
  unfold parseConfigurationFile.
  apply grows_bind; [apply grows_loadConfigurationFile|intros ?].
  repeat grows_step.
Qed.

Lemma grows_findSpecificationForConfig configurationPath :
  grows (findSpecificationForConfig W (specifications this) configurationPath
           (abortOrReport this)).
Proof. unfold findSpecificationForConfig. repeat grows_step. Qed.

Lemma grows_findEntryPath directory specification :
  grows (findEntryPath W this directory specification).
Proof. unfold findEntryPath. repeat grows_step. Qed.

Lemma grows_loadExtension configurationPath :
  grows (loadExtension W this configurationPath).
Proof.
  unfold loadExtension.
  apply grows_bind; [apply grows_findSpecificationForConfig|intros ?].
  case_match; [|apply grows_ret].
  apply grows_bind; [apply grows_parseConfigurationFile|intros ?].
  apply grows_bind; [apply grows_findEntryPath|intros ?].
  repeat grows_step.
Qed.

Lemma grows_loadExtensions appDirectory extensionDirectories :
  grows (loadExtensions W this appDirectory extensionDirectories).
Proof.
  unfold loadExtensions.
  apply grows_bind; [apply grows_mapM, grows_loadExtension|intros ?]. apply grows_ret.
Qed.

Lemma grows_validateWebs webs : grows (validateWebs W this webs).
Proof. unfold validateWebs. repeat grows_step. Qed.

Lemma grows_loadWeb WebConfigurationFile : grows (loadWeb W this WebConfigurationFile).
Proof.
  unfold loadWeb.
  apply grows_bind; [apply grows_parseConfigurationFile|intros ?].
  repeat grows_step.
Qed.

Lemma grows_loadWebs appDirectory webDirectories :
  grows (loadWebs W this appDirectory webDirectories).
Proof.
  unfold loadWebs.
  apply grows_bind; [apply grows_mapM, grows_loadWeb|intros ?].
  apply grows_bind; [apply grows_validateWebs|intros ?]. apply grows_ret.
Qed.

End growth.

(** ** Promise.all over a list *)

Lemma mapM_returns {A B} (f : A → Loader B) (xs : list A) errors ys errors' :
  (∀ x, grows (f x)) →
  mapM f xs errors = (inr ys, errors') →
  Forall2
    (λ x y, ∃ errors1 errors2,
       f x errors1 = (inr y, errors2) ∧ dom errors2 ⊆ dom errors')
    xs ys.
Proof.
  intros Hf. revert errors ys. induction xs as [|x xs IH]; intros errors ys; simpl.
  - intros [= <- _]. constructor.
  - intros (y & errors1 & Hx & Hrest)%bind_returns.
    apply bind_returns in Hrest as (ys' & errors2 & Hxs & [= <- <-]).
    constructor; [|by apply (IH errors1)].
    exists errors, errors1. split; [done|].
    by apply (grows_mapM f xs Hf _ _ _ Hxs).
Qed.

Lemma mapM_throws {A B} (f : A → Loader B) (xs : list A) x :
  x ∈ xs →
  (∀ errors, ∃ e errors', f x errors = (inl e, errors')) →
  ∀ errors, ∃ e errors', mapM f xs errors = (inl e, errors').
Proof.
  intros Hx Hthrows. induction Hx as [x xs|x x' xs Hx IH]; intros errors; simpl.
  - destruct (Hthrows errors) as (e & errors' & Hrun).
    exists e, errors'. by apply bind_throws.
  - rewrite bind_run. destruct (f x' errors) as [[e|y] errors1]; [by eexists _, _|].
    destruct (IH Hthrows errors1) as (e & errors' & Hrun).
    exists e, errors'. by apply bind_throws.
Qed.

Lemma mapM_total {A B} (f : A → Loader B) (xs : list A) :
  (∀ x errors, x ∈ xs → ∃ y errors', f x errors = (inr y, errors')) →
  ∀ errors, ∃ ys errors', mapM f xs errors = (inr ys, errors').
Proof.
  induction xs as [|x xs IH]; intros Hf errors; simpl; [by eexists _, _|].
  destruct (Hf x errors) as (y & errors1 & Hx); [apply list_elem_of_here|].
  destruct (IH (λ x' s Hx', Hf x' s (list_elem_of_further _ _ _ Hx')) errors1)
    as (ys & errors' & Hxs).
  exists (y :: ys), errors'.
  rewrite (bind_step _ _ _ _ _ Hx). by rewrite (bind_step _ _ _ _ _ Hxs).
Qed.

(** ** Extensions of unknown type *)

Section unknown_extensions.

Context (W : World) (this : AppLoader).

Lemma findSpecificationForType_none specifications type :
  (∀ specification, specification ∈ specifications →
     identifier specification ≠ type
     ∧ externalIdentifier specification ≠ Some type
     ∧ ∀ ids, additionalIdentifiers specification = Some ids → type ∉ ids) →
  findSpecificationForType specifications type = None.
Proof.
  intros Hnone. unfold findSpecificationForType.
  destruct (List.find _ specifications) as [spec|] eqn:Hfind; [|done].
  apply find_some in Hfind as [Hin Htrue].
  destruct (Hnone spec) as (Hid & Hext & Hadd); [by apply list_elem_of_In|].
  exfalso. apply orb_true_iff in Htrue as [Htrue|Htrue];
    [apply orb_true_iff in Htrue as [Htrue|Htrue]|].
  - by apply String.eqb_eq in Htrue.
  - destruct (externalIdentifier spec) as [e|]; [|done].
    apply String.eqb_eq in Htrue. congruence.
  - destruct (additionalIdentifiers spec) as [ids|]; [|done].
    apply existsb_exists in Htrue as (id & Hid' & ->%String.eqb_eq).
    apply (Hadd ids); [done|]. by apply list_elem_of_In.
Qed.

Lemma findSpecificationForConfig_unknown path type (policy : AbortOrReport) errors :
  unknown_type W (specifications this) path type →
  findSpecificationForConfig W (specifications this) path policy errors
  = (policy unit (unknown_type_message W type path) tt path ≫= λ _, ret None) errors.
Proof.
  intros (content & obj & Hread & Hdecode & Htype & Hnone).
  unfold findSpecificationForConfig.
  rewrite bind_run, Hread. simpl. rewrite bind_run, Hdecode. simpl.
  rewrite bind_run, Htype. simpl.
  by rewrite (findSpecificationForType_none _ _ Hnone).
Qed.

Lemma loadExtension_unknown path type errors :
  unknown_type W (specifications this) path type →
  loadExtension W this path errors
  = match mode this with
    | strict => (inl (AbortError (unknown_type_message W type path)), errors)
    | report =>
        (inr None, AppErrors.addError path (unknown_type_message W type path) errors)
    end.
Proof.
  intros Hunknown. unfold loadExtension.
  rewrite bind_run, (findSpecificationForConfig_unknown _ _ _ _ Hunknown).
  rewrite bind_run. unfold abortOrReport. by destruct (mode this).
Qed.

Lemma loadExtension_configurationPath path errors extension errors' :
  loadExtension W this path errors = (inr (Some extension), errors') →
  ext_configurationPath extension = path.
Proof.
  unfold loadExtension.
  intros (specification & errors1 & _ & Hrest)%bind_returns.
  destruct specification as [specification|]; [|discriminate].
  apply bind_returns in Hrest as (configuration & errors2 & _ & Hrest).
  apply bind_returns in Hrest as (entryPath & errors3 & _ & Hrest).
  apply bind_returns in Hrest as ([] & errors4 & _ & [= <- _]). done.
Qed.

Lemma loadExtensions_unknown_strict appDirectory extensionDirectories path type errors :
  mode this = strict →
  path ∈ configPaths W appDirectory extensionDirectories →
  unknown_type W (specifications this) path type →
  ∃ e errors',
    loadExtensions W this appDirectory extensionDirectories errors = (inl e, errors').
Proof.
  intros Hmode Hfound Hunknown. unfold loadExtensions.
  fold (configPaths W appDirectory extensionDirectories).
  destruct (mapM_throws (loadExtension W this) _ path Hfound) with (errors := errors)
    as (e & errors' & Hrun).
  { intros errors0. rewrite (loadExtension_unknown _ _ _ Hunknown), Hmode.
    by eexists _, _. }
  exists e, errors'. by apply bind_throws.
Qed.

Lemma loadExtensions_unknown_report appDirectory extensionDirectories path type errors
    allExtensions usedCustomLayout errors' :
  mode this = report →
  path ∈ configPaths W appDirectory extensionDirectories →
  unknown_type W (specifications this) path type →
  loadExtensions W this appDirectory extensionDirectories errors
  = (inr (allExtensions, usedCustomLayout), errors') →
  (∀ extension, extension ∈ allExtensions → ext_configurationPath extension ≠ path)
  ∧ path ∈ dom errors'.
Proof.
  intros Hmode Hfound Hunknown.
  assert (Hfile : ∀ errors0, loadExtension W this path errors0
            = (inr None, AppErrors.addError path (unknown_type_message W type path) errors0)).
  { intros errors0. by rewrite (loadExtension_unknown _ _ _ Hunknown), Hmode. }
  unfold loadExtensions. fold (configPaths W appDirectory extensionDirectories).
  intros (extensions & errors1 & Hrun & [= <- _ <-])%bind_returns.
  apply mapM_returns in Hrun; [|apply grows_loadExtension].
  split.
  - intros extension Hin Hpath. unfold getArrayRejectingUndefined in Hin.
    apply list_elem_of_omap in Hin as (candidate & Hcandidate & Hsome).
    simpl in Hsome. subst candidate.
    apply list_elem_of_lookup in Hcandidate as (i & Hi).
    destruct (Forall2_lookup_r _ _ _ _ _ Hrun Hi)
      as (other & Hother & errors2 & errors3 & Hload & _).
    pose proof (loadExtension_configurationPath _ _ _ _ Hload) as Hsame.
    rewrite Hpath in Hsame. subst other. rewrite Hfile in Hload. discriminate.
  - apply list_elem_of_lookup in Hfound as (i & Hi).
    destruct (Forall2_lookup_l _ _ _ _ _ Hrun Hi)
      as (result & _ & errors2 & errors3 & Hload & Hsub).
    rewrite Hfile in Hload. injection Hload as _ <-.
    apply Hsub. unfold AppErrors.addError. rewrite dom_insert_L. set_solver.
Qed.

(** C4: an extension configuration file found by [loadExtensions] whose
    declared type matches no specification (not an identifier, not an external
    identifier, not among the additional identifiers of any entry): in report
    mode processing the file records the diagnostic under its path and yields
    no instance; [loadExtensions] returns as soon as every file's own
    processing returns, and whenever it returns, no returned extension has that
    configuration path and the path is a key of the error set. In strict mode
    [loadExtensions] throws. *)
Theorem loadExtensions_unknown_type (appDirectory : string)
    (extensionDirectories : option (list string)) (path type : string)
    (errors : AppErrors.t) :
  path ∈ configPaths W appDirectory extensionDirectories →
  unknown_type W (specifications this) path type →
  match mode this with
  | strict =>
      ∃ e errors',
        loadExtensions W this appDirectory extensionDirectories errors
        = (inl e, errors')
  | report =>
      (∀ errors0, loadExtension W this path errors0
         = (inr None, AppErrors.addError path (unknown_type_message W type path) errors0))
      ∧ ((∀ other errors0,
            other ∈ configPaths W appDirectory extensionDirectories →
            ∃ result errors1, loadExtension W this other errors0 = (inr result, errors1)) →
         ∃ allExtensions usedCustomLayout errors',
           loadExtensions W this appDirectory extensionDirectories errors
           = (inr (allExtensions, usedCustomLayout), errors'))
      ∧ ∀ allExtensions usedCustomLayout errors',
          loadExtensions W this appDirectory extensionDirectories errors
          = (inr (allExtensions, usedCustomLayout), errors') →
          (∀ extension, extension ∈ allExtensions →
             ext_configurationPath extension ≠ path)
          ∧ path ∈ dom errors'
  end.
Proof.
  intros Hfound Hunknown. destruct (mode this) eqn:Hmode.
  - by apply (loadExtensions_unknown_strict _ _ path type).
  - split; [|split].
    + intros errors0. by rewrite (loadExtension_unknown _ _ _ Hunknown), Hmode.
    + intros Htotal. unfold loadExtensions.
      fold (configPaths W appDirectory extensionDirectories).
      destruct (mapM_total (loadExtension W this)
                  (configPaths W appDirectory extensionDirectories)) with (errors := errors)
        as (extensions & errors' & Hrun).
      { intros other errors0 Hother. by apply Htotal. }
      eexists _, _, errors'. by rewrite (bind_step _ _ _ _ _ Hrun).
    + intros allExtensions usedCustomLayout errors'.
      by apply (loadExtensions_unknown_report _ _ path type).
Qed.

(** The same at the level of a whole load whose root configuration has been
    resolved: in strict mode the load throws; in report mode a load that
    completes returns an application without an extension for that path, and
    the path is a key of the final error set. *)
Lemma loaded_unknown_type (initial : AppErrors.t)
    (resolved : AppConfigurationInterface) (path type : string) :
  AppConfigurationLoader_loaded W
    (mk_configuration_loader (loader_directory this) (loader_configName this)) initial
  = (inr resolved, initial) →
  path ∈ configPaths W (appDirectory resolved)
           (string_array_field "extension_directories" (configuration resolved)) →
  unknown_type W (specifications this) path type →
  match mode this with
  | strict => ∃ e errors', loaded W this initial = (inl e, errors')
  | report =>
      ∀ app recorded,
        loaded W this initial = (inr app, recorded) →
        (∀ extension, extension ∈ allExtensions app →
           ext_configurationPath extension ≠ path)
        ∧ path ∈ dom recorded
  end.
Proof.
  intros Hresolved Hfound Hunknown. destruct (mode this) eqn:Hmode.
  - unfold loaded. rewrite (bind_step _ _ _ _ _ Hresolved). rewrite bind_run.
    destruct (loadDotEnv W (appDirectory resolved) initial) as [[e|dotenv] errors1];
      [by eexists _, _|].
    destruct (loadExtensions_unknown_strict (appDirectory resolved)
                (string_array_field "extension_directories" (configuration resolved))
                path type errors1 Hmode Hfound Hunknown) as (e & errors' & Hthrow).
    exists e, errors'. by apply bind_throws.
  - intros app recorded. unfold loaded. rewrite (bind_step _ _ _ _ _ Hresolved).
    intros Hrun.
    apply bind_returns in Hrun as (dotenv & s2 & _ & Hrun).
    apply bind_returns in Hrun as ([extensions usedCustomLayout] & s3 & Hextensions & Hrun).
    apply bind_returns in Hrun as (name & s4 & Hname & Hrun).
    apply bind_returns in Hrun as (nodeDependencies & s5 & [_ ->]%call_returns & Hrun).
    apply bind_returns in Hrun as (packageManager & s6 & [_ ->]%call_returns & Hrun).
    apply bind_returns in Hrun as ([webs usedCustomLayoutForWeb] & s7 & Hwebs & Hrun).
    apply bind_returns in Hrun as (usesWorkspaces & s8 & [_ ->]%call_returns & Hrun).
    apply bind_returns in Hrun as (seen & s9 & [= <- <-] & Hrun).
    apply bind_returns in Hrun as ([] & s10 & [_ ->]%call_returns & [= <- <-]).
    destruct (loadExtensions_unknown_report _ _ path type _ _ _ _ Hmode Hfound Hunknown
                Hextensions) as [Habsent Hkey].
    split.
    + intros extension. by destruct (AppErrors.isEmpty s7); apply Habsent.
    + apply (grows_loadWebs W this _ _ _ _ _ Hwebs).
      unfold loadAppName in Hname.
      apply bind_returns in Hname as (? & ? & [_ ->]%call_returns & [= _ <-]).
      done.
Qed.

End unknown_extensions.

Lemma loadExtensions_unknown_type_witness :
  (∃ errors',
     loadExtensions world_unknown_extension report_loader "/app" None ∅
     = (inr ([], false), errors')
     ∧ "/app/extensions/x/x.extension.toml" ∈ dom errors')
  ∧ ∃ e errors',
      loadExtensions world_unknown_extension strict_loader "/app" None ∅
      = (inl e, errors').
Proof.
  assert (Hunknown : unknown_type world_unknown_extension (specifications report_loader)
                       "/app/extensions/x/x.extension.toml" "unknown-kind").
  { exists "type = 'unknown-kind'", (JObj [("type", JStr "unknown-kind")]).
    split; [reflexivity|]. split; [reflexivity|]. split; [reflexivity|].
    intros specification ->%list_elem_of_singleton.
    split; [discriminate|]. split; [discriminate|].
    intros ids [= <-]. by intros ?%list_elem_of_singleton. }
  assert (Hfound : "/app/extensions/x/x.extension.toml"
                   ∈ configPaths world_unknown_extension "/app" None)
    by apply list_elem_of_here.
  split.
  - pose proof (loadExtensions_unknown_type world_unknown_extension report_loader
                  "/app" None "/app/extensions/x/x.extension.toml" "unknown-kind" ∅
                  Hfound Hunknown) as (_ & _ & Hreturned).
    eexists. split; [reflexivity|].
    by apply (Hreturned [] false _ eq_refl).
  - exact (loadExtensions_unknown_type world_unknown_extension strict_loader
             "/app" None "/app/extensions/x/x.extension.toml" "unknown-kind" ∅
             Hfound Hunknown).
Defined.

(** ** Root directory *)

Section root_directory.

Context (W : World).

Lemma ancestor_succ k directory :
  ancestor W (S k) directory = ancestor W k (dirname W directory).
Proof. unfold ancestor. apply Nat.iter_succ_r. Qed.

Lemma ancestor_root k directory :
  dirname W directory = directory → ancestor W k directory = directory.
Proof.
  intros Hroot. induction k as [|k IH]; [done|].
  by rewrite ancestor_succ, Hroot.
Qed.

Lemma findPathUp_from_none steps (matcher : string → option string) directory :
  (∀ k, matcher (ancestor W k directory) = None) →
  findPathUp_from steps (dirname W) matcher directory = None.
Proof.
  revert directory. induction steps as [|steps IH]; intros directory Hnone;
    pose proof (Hnone 0%nat) as Hhere;
    change (ancestor W 0 directory) with directory in Hhere;
    simpl; rewrite Hhere; destruct (String.eqb _ _); try done.
  apply IH. intros k. rewrite <- ancestor_succ. apply Hnone.
Qed.

Lemma findPathUp_from_first steps (matcher : string → option string) directory k found :
  (k ≤ steps)%nat →
  matcher (ancestor W k directory) = Some found →
  (∀ j, (j < k)%nat → matcher (ancestor W j directory) = None) →
  findPathUp_from steps (dirname W) matcher directory = Some found.
Proof.
  revert steps directory. induction k as [|k IH]; intros steps directory Hk Hfound Hbefore.
  - change (ancestor W 0 directory) with directory in Hfound.
    destruct steps; simpl; by rewrite Hfound.
  - destruct steps as [|steps]; [lia|]. simpl.
    assert (Hhere : matcher directory = None) by (apply (Hbefore 0%nat); lia).
    rewrite Hhere.
    destruct (String.eqb_spec (dirname W directory) directory) as [Hroot|_].
    + rewrite (ancestor_root _ _ Hroot) in Hfound. congruence.
    + apply IH; [lia|by rewrite <- ancestor_succ|].
      intros j Hj. rewrite <- ancestor_succ. apply Hbefore. lia.
Qed.

(** Above a directory that is not matched lies a shorter one, so the first
    match is within as many steps as the start has characters. *)
Lemma first_match_within_length (matcher : string → option string) directory k found :
  (∀ d, dirname W d ≠ d → (String.length (dirname W d) < String.length d)%nat) →
  matcher (ancestor W k directory) = Some found →
  (∀ j, (j < k)%nat → matcher (ancestor W j directory) = None) →
  (String.length (ancestor W k directory) + k ≤ String.length directory)%nat.
Proof.
  intros Hshorter. revert directory.
  induction k as [|k IH]; intros directory Hfound Hbefore; [simpl; lia|].
  assert (Hproper : dirname W directory ≠ directory).
  { intros Hroot. rewrite (ancestor_root _ _ Hroot) in Hfound.
    assert (Hhere : matcher directory = None) by (apply (Hbefore 0%nat); lia).
    congruence. }
  rewrite ancestor_succ in *.
  specialize (IH (dirname W directory) Hfound).
  pose proof (Hshorter _ Hproper).
  assert (String.length (ancestor W k (dirname W directory)) + k
          ≤ String.length (dirname W directory))%nat; [|lia].
  apply IH. intros j Hj. rewrite <- ancestor_succ. apply Hbefore. lia.
Qed.

Lemma containsAppConfiguration_spec directory :
  containsAppConfiguration W directory
  = if has_app_configuration W directory then Some directory else None.
Proof. reflexivity. Qed.

(** C6: when the starting directory does not exist the load throws the fatal
    "Couldn't find directory" error; when it exists and neither it nor any of
    its ancestors holds a file matching shopify.app*.toml the load throws the
    fatal "Couldn't find the configuration file" error, a different one; both
    whatever the mode of the loader, and without recording anything. When some
    ancestor (the start included) holds such a file, the nearest one is
    returned, given that a parent path is shorter than its child and that the
    match is not the empty path. *)
Theorem getAppDirectory_resolution (this : AppLoader) (errors : AppErrors.t) :
  let start := loader_directory this in
  let configurationLoader := mk_configuration_loader start (loader_configName this) in
  (fileExists W start = false →
     loaded W this errors = (inl (AbortError (directory_not_found start)), errors))
  ∧ (fileExists W start = true →
     (∀ k, has_app_configuration W (ancestor W k start) = false) →
     loaded W this errors
     = (inl (AbortError (configuration_not_found start)), errors))
  ∧ directory_not_found start ≠ configuration_not_found start
  ∧ (∀ k,
       fileExists W start = true →
       has_app_configuration W (ancestor W k start) = true →
       (∀ j, (j < k)%nat → has_app_configuration W (ancestor W j start) = false) →
       (∀ d, dirname W d ≠ d →
          (String.length (dirname W d) < String.length d)%nat) →
       ancestor W k start ≠ "" →
       getAppDirectory W configurationLoader errors = (inr (ancestor W k start), errors)).
Proof.
  intros start configurationLoader. repeat split.
  - intros Hmissing. unfold loaded, AppConfigurationLoader_loaded.
    rewrite !bind_run. unfold getAppDirectory. simpl. fold start.
    by rewrite Hmissing.
  - intros Hexists Hnone. unfold loaded, AppConfigurationLoader_loaded.
    rewrite !bind_run. unfold getAppDirectory, findPathUp. simpl. fold start.
    rewrite Hexists. simpl. rewrite findPathUp_from_none; [done|].
    intros k. by rewrite containsAppConfiguration_spec, Hnone.
  - discriminate.
  - intros k Hexists Hmatch Hbefore Hshorter Hnonempty.
    unfold getAppDirectory, findPathUp. simpl. rewrite Hexists. simpl.
    assert (Hfound : containsAppConfiguration W (ancestor W k start)
                     = Some (ancestor W k start))
      by (by rewrite containsAppConfiguration_spec, Hmatch).
    assert (Hearlier : ∀ j, (j < k)%nat →
                         containsAppConfiguration W (ancestor W j start) = None).
    { intros j Hj. by rewrite containsAppConfiguration_spec, Hbefore. }
    rewrite (findPathUp_from_first _ _ _ k (ancestor W k start)); [|
      pose proof (first_match_within_length _ _ _ _ Hshorter Hfound Hearlier); lia
      |done|done].
    simpl. by destruct (String.eqb_spec (ancestor W k start) "").
Qed.

End root_directory.

Lemma last_slash_lt (s : string) i :
  last_slash s = Some i → (i < String.length s)%nat.
Proof.
  revert i. induction s as [|c s IH]; intros i; simpl; [done|].
  destruct (last_slash s) as [j|].
  - intros [= <-]. specialize (IH j eq_refl). lia.
  - destruct (Ascii.eqb c "/"); [|done]. intros [= <-]. lia.
Qed.

Lemma substring_length_le (s : string) n :
  (String.length (substring 0 n s) ≤ n)%nat.
Proof.
  revert s. induction n as [|n IH]; intros [|c s]; simpl; try lia.
  specialize (IH s). lia.
Qed.

Lemma sample_dirname_shorter (d : string) :
  sample_dirname d ≠ d →
  (String.length (sample_dirname d) < String.length d)%nat.
Proof.
  unfold sample_dirname. destruct (last_slash d) as [[|i]|] eqn:Hslash; [| |done].
  - intros Hne. destruct d as [|c [|c' d]]; simpl in *; [done| |lia].
    destruct (Ascii.eqb_spec c "/"%char) as [Heq|Hneq]; [by rewrite Heq in Hne|done].
  - intros _. apply last_slash_lt in Hslash.
    pose proof (substring_length_le d (S i)). lia.
Qed.

Lemma getAppDirectory_resolution_witness :
  getAppDirectory world_plain (mk_configuration_loader "/app/src/lib" None) ∅
  = (inr "/app", ∅)
  ∧ loaded world_plain (mk_loader "/nowhere" report None []) ∅
    = (inl (AbortError (directory_not_found "/nowhere")), ∅)
  ∧ loaded world_malformed (mk_loader "/app/web" report None []) ∅
    = (inl (AbortError (configuration_not_found "/app/web")), ∅).
Proof.
  split; [|split].
  - pose proof (getAppDirectory_resolution world_plain
                  (mk_loader "/app/src/lib" report None []) ∅) as (_ & _ & _ & Hnearest).
    apply (Hnearest 2%nat);
      [reflexivity|reflexivity| |apply sample_dirname_shorter|discriminate].
    intros [|[|j]] Hj; [reflexivity|reflexivity|lia].
  - pose proof (getAppDirectory_resolution world_plain
                  (mk_loader "/nowhere" report None []) ∅) as (Hmissing & _).
    by apply Hmissing.
  - pose proof (getAppDirectory_resolution world_malformed
                  (mk_loader "/app/web" report None []) ∅) as (_ & Hnone & _).
    apply Hnone; [reflexivity|].
    intros k. reflexivity.
Defined.

(** ** Assembly *)

Lemma isEmpty_spec (errors : AppErrors.t) :
  AppErrors.isEmpty errors = true ↔ errors = ∅.
Proof.
  unfold AppErrors.isEmpty, AppErrors.keys. rewrite Nat.eqb_eq, length_fmap.
  rewrite length_zero_iff_nil. apply map_to_list_empty_iff.
Qed.

(** The error set seen by the emptiness test of [loaded] is the one the load
    ends with. *)
Lemma loaded_returns (W : World) (this : AppLoader) initial app recorded :
  loaded W this initial = (inr app, recorded) →
  errors app = if AppErrors.isEmpty recorded then None else Some recorded.
Proof.
  unfold loaded. intros Hrun.
  apply bind_returns in Hrun as (loadedConfiguration & s1 & _ & Hrun).
  apply bind_returns in Hrun as (dotenv & s2 & _ & Hrun).
  apply bind_returns in Hrun as ([allExtensions usedCustomLayout] & s3 & _ & Hrun).
  apply bind_returns in Hrun as (name & s4 & _ & Hrun).
  apply bind_returns in Hrun as (nodeDependencies & s5 & _ & Hrun).
  apply bind_returns in Hrun as (packageManager & s6 & _ & Hrun).
  apply bind_returns in Hrun as ([webs usedCustomLayoutForWeb] & s7 & _ & Hrun).
  apply bind_returns in Hrun as (usesWorkspaces & s8 & _ & Hrun).
  apply bind_returns in Hrun as (seen & s9 & [= <- <-] & Hrun).
  apply bind_returns in Hrun as ([] & s10 & [_ ->]%call_returns & [= <- <-]).
  by destruct (AppErrors.isEmpty s8).
Qed.

(** C10: a load that completes returns an application whose [errors]
    attribute is set exactly when the error set of the load is not empty, that
    is when some path has a diagnostic; when set, it is that error set. *)
Theorem load_errors_attribute (W : World) (options : AppLoaderConstructorArgs)
    (app : App) (recorded : AppErrors.t) :
  load W options = (inr app, recorded) →
  (is_Some (errors app) ↔ recorded ≠ ∅)
  ∧ (is_Some (errors app) ↔
       ∃ path message, AppErrors.getError path recorded = Some message)
  ∧ (errors app = None ↔ AppErrors.isEmpty recorded = true)
  ∧ (∀ attribute, errors app = Some attribute → attribute = recorded).
Proof.
  unfold load. intros Hattribute%loaded_returns.
  pose proof (isEmpty_spec recorded) as Hempty.
  destruct (AppErrors.isEmpty recorded) eqn:Hflag; rewrite Hattribute.
  - assert (Hnone : recorded = ∅) by (by apply Hempty). subst recorded.
    split; [|split; [|split]].
    + split; [by intros [? ?]|done].
    + split; [by intros [? ?]|].
      intros (path & message & Hlookup). unfold AppErrors.getError in Hlookup.
      by rewrite lookup_empty in Hlookup.
    + done.
    + done.
  - assert (Hsome : recorded ≠ ∅).
    { intros Hnone. apply Hempty in Hnone. discriminate. }
    split; [|split; [|split]].
    + split; [done|by eexists].
    + split; [|by eexists].
      intros _. apply map_choose in Hsome as (path & message & Hlookup).
      by exists path, message.
    + done.
    + by intros attribute [= <-].
Qed.

Lemma load_errors_attribute_witness :
  (load world_unknown_extension report_options
   = (inr unknown_extension_app, unknown_extension_errors)
   ∧ is_Some (errors unknown_extension_app)
   ∧ unknown_extension_errors ≠ ∅)
  ∧ (load world_plain report_options = (inr plain_app, ∅)
     ∧ errors plain_app = None).
Proof.
  split.
  - pose proof (load_errors_attribute world_unknown_extension report_options
                  unknown_extension_app unknown_extension_errors eq_refl)
      as (Hset & _).
    split; [reflexivity|]. split; [by eexists|]. apply Hset. by eexists.
  - pose proof (load_errors_attribute world_plain report_options plain_app ∅ eq_refl)
      as (_ & _ & Hunset & _).
    split; [reflexivity|]. by apply Hunset.
Defined.

(** * Further properties *)

(** ** findSpecificationForType *)

Lemma accepts_test (specification : ExtensionSpecification) (type : string) :
  (String.eqb (identifier specification) type
   || match externalIdentifier specification with
      | Some e => String.eqb e type
      | None => false
      end
   || match additionalIdentifiers specification with
      | Some ids => existsb (String.eqb type) ids
      | None => false
      end) = true
  ↔ accepts specification type.
Proof.
  unfold accepts. rewrite !orb_true_iff, String.eqb_eq. split.
  - intros [[Hid|Hext]|Hadd]; [by left| |].
    + destruct (externalIdentifier specification) as [e|]; [|done].
      apply String.eqb_eq in Hext as ->. right. by left.
    + destruct (additionalIdentifiers specification) as [ids|]; [|done].
      apply existsb_exists in Hadd as (id & Hin & ->%String.eqb_eq).
      right. right. exists ids. split; [done|]. by apply list_elem_of_In.
  - intros [Hid|[Hext|(ids & Hids & Hin)]]; [left; by left| |].
    + left. right. rewrite Hext. apply String.eqb_refl.
    + right. rewrite Hids. apply existsb_exists. exists type.
      split; [by apply list_elem_of_In|apply String.eqb_refl].
Qed.

(** X1: the registry matcher returns the first specification, in registry order,
    that accepts the type by its identifier, its external identifier or an
    additional identifier, and nothing exactly when no specification does. *)
Theorem findSpecificationForType_first_accepting
    (specifications : list ExtensionSpecification) (type : string) :
  (∀ specification,
     findSpecificationForType specifications type = Some specification ↔
     ∃ before after,
       specifications = (before ++ specification :: after)%list
       ∧ accepts specification type
       ∧ ∀ earlier, earlier ∈ before → ¬ accepts earlier type)
  ∧ (findSpecificationForType specifications type = None ↔
     ∀ specification, specification ∈ specifications → ¬ accepts specification type).
Proof.
  unfold findSpecificationForType.
  induction specifications as [|s specs [IHsome IHnone]]; simpl.
  - split.
    + intros specification. split; [done|].
      intros (before & after & Heq & _). by destruct before.
    + split; [|done]. intros _ specification Hin. by apply not_elem_of_nil in Hin.
  - pose proof (accepts_test s type) as Htest.
    destruct (_ || _ || _) eqn:Hs.
    + assert (Haccepts : accepts s type) by (by apply Htest). split.
      * intros specification. split.
        -- intros [= <-]. exists [], specs. split; [done|]. split; [done|].
           intros earlier Hin. by apply not_elem_of_nil in Hin.
        -- intros ([|b before] & after & Heq & Hacc & Hbefore).
           ++ by injection Heq as <- _.
           ++ injection Heq as <- _. exfalso.
              apply (Hbefore s); [apply list_elem_of_here|done].
      * split; [done|]. intros Hnone. exfalso.
        apply (Hnone s); [apply list_elem_of_here|done].
    + assert (Hrejects : ¬ accepts s type).
      { intros Hacc%Htest. discriminate. }
      split.
      * intros specification. rewrite IHsome. split.
        -- intros (before & after & -> & Hacc & Hbefore).
           exists (s :: before), after. split; [done|]. split; [done|].
           intros earlier [->|Hin]%elem_of_cons; [done|by apply Hbefore].
        -- intros ([|b before] & after & Heq & Hacc & Hbefore).
           ++ injection Heq as <- _. done.
           ++ injection Heq as <- ->. exists before, after.
              split; [done|]. split; [done|].
              intros earlier Hin. apply Hbefore. by apply list_elem_of_further.
      * rewrite IHnone. split.
        -- intros Hnone specification [->|Hin]%elem_of_cons; [done|by apply Hnone].
        -- intros Hnone specification Hin. apply Hnone. by apply list_elem_of_further.
Qed.

(** ** getAppConfigurationFileName *)

Lemma length_append (s t : string) :
  String.length (s +:+ t) = (String.length s + String.length t)%nat.
Proof.
  induction s as [|c s IH]; [done|]. rewrite append_cons. simpl. by rewrite IH.
Qed.

Lemma append_cancel_r (s1 s2 t : string) : s1 +:+ t = s2 +:+ t → s1 = s2.
Proof.
  revert s2. induction s1 as [|c s1 IH]; intros [|c2 s2] Heq; [done| | |].
  - apply (f_equal String.length) in Heq.
    rewrite !length_append in Heq. simpl in Heq. lia.
  - apply (f_equal String.length) in Heq.
    rewrite !length_append in Heq. simpl in Heq. lia.
  - rewrite !append_cons in Heq. injection Heq as -> Heq. f_equal. by apply IH.
Qed.

(** A wrapped name is a valid file name exactly when the name is a non-empty
    run of word characters and hyphens. *)
Lemma validFileRegex_wrapped (config : string) :
  regex_test validFileRegex ("shopify.app." +:+ config +:+ ".toml") = true
  ↔ config ≠ "" ∧ all_chars hyphen_or_word config = true.
Proof.
  rewrite validFileRegex_accepts. split.
  - intros [Hdefault|(w & Hne & Hw & Heq)].
    + apply (f_equal String.length) in Hdefault.
      rewrite !length_append in Hdefault. simpl in Hdefault. lia.
    + apply (inj (String.append "shopify.app.")) in Heq.
      apply append_cancel_r in Heq. by subst.
  - intros [Hne Hw]. right. by exists config.
Qed.

(** X3: the configuration file name: the default name when no name (or the empty
    name) is given; a name that already is a valid file name unchanged; any
    other name wrapped into shopify.app.<name>.toml. Applying the function to
    such a wrapped name gives the wrapped name back exactly when the name is
    made of word characters and hyphens: a name with a dot or a space is
    wrapped a second time. *)
Theorem getAppConfigurationFileName_wrapping (app config : string) :
  config ≠ "" →
  regex_test validFileRegex config = false →
  getAppConfigurationFileName app None = app
  ∧ getAppConfigurationFileName app (Some "") = app
  ∧ getAppConfigurationFileName app (Some config)
    = "shopify.app." +:+ config +:+ ".toml"
  ∧ (getAppConfigurationFileName app
       (Some (getAppConfigurationFileName app (Some config)))
     = getAppConfigurationFileName app (Some config)
     ↔ all_chars hyphen_or_word config = true).
Proof.
  intros Hne Htest.
  assert (Hwrap : getAppConfigurationFileName app (Some config)
                  = "shopify.app." +:+ config +:+ ".toml").
  { unfold getAppConfigurationFileName. rewrite Htest.
    by destruct (String.eqb_spec config ""). }
  split; [done|]. split; [done|]. split; [done|].
  rewrite Hwrap. unfold getAppConfigurationFileName.
  change (negb (("shopify.app." +:+ config +:+ ".toml") =? "")%string) with true.
  cbv iota.
  pose proof (validFileRegex_wrapped config) as Hwrapped.
  destruct (regex_test validFileRegex ("shopify.app." +:+ config +:+ ".toml")).
  - split; [intros _; by apply Hwrapped|done].
  - split.
    + intros Heq. apply (f_equal String.length) in Heq.
      rewrite !length_append in Heq. simpl in Heq. lia.
    + intros Hw. assert (false = true); [|done]. by apply Hwrapped.
Qed.

Lemma getAppConfigurationFileName_wrapping_witness :
  getAppConfigurationFileName "shopify.app.toml" (Some "staging.v2")
  = "shopify.app.staging.v2.toml"
  ∧ getAppConfigurationFileName "shopify.app.toml" (Some "shopify.app.staging.v2.toml")
    = "shopify.app.shopify.app.staging.v2.toml.toml".
Proof.
  pose proof (getAppConfigurationFileName_wrapping "shopify.app.toml" "staging.v2")
    as (_ & _ & Hwrap & _); [discriminate|reflexivity|].
  split; [exact Hwrap|reflexivity].
Defined.

(** ** validateWebs *)

(** X4: when each of the backend and frontend roles is declared by at most one
    web, validation returns and leaves the error set as it was, in either
    mode; when only the frontend role is declared twice, strict mode throws
    the frontend message. *)
Theorem validateWebs_without_conflict (W : World) (this : AppLoader)
    (webs : list Web) (errors : AppErrors.t) :
  (List.length (websOfType webs Backend) ≤ 1)%nat →
  ((List.length (websOfType webs Frontend) ≤ 1)%nat →
     validateWebs W this webs errors = (inr tt, errors))
  ∧ (mode this = strict →
     (1 < List.length (websOfType webs Frontend))%nat →
     validateWebs W this webs errors
     = (inl (AbortError (role_conflict_message Frontend)), errors)).
Proof.
  intros Hbackend. unfold validateWebs. simpl.
  fold (websOfType webs Backend). fold (websOfType webs Frontend).
  rewrite bind_run.
  destruct (websOfType webs Backend) as [|b1 [|b2 brest]]; simpl in *; try lia;
    rewrite bind_run; (split; [intros Hfrontend|intros Hstrict Hfrontend]);
    destruct (websOfType webs Frontend) as [|f1 [|f2 frest]]; simpl in *;
      try lia; try done;
    unfold abortOrReport; by rewrite Hstrict.
Qed.

Lemma validateWebs_without_conflict_witness :
  validateWebs world_plain strict_loader
    [backend_web "/app/web/a"; mk_web "/app/web/b" [JStr "frontend"] [] "unknown"] ∅
  = (inr tt, ∅).
Proof.
  apply (validateWebs_without_conflict world_plain strict_loader
           [backend_web "/app/web/a"; mk_web "/app/web/b" [JStr "frontend"] [] "unknown"]
           ∅); simpl; lia.
Defined.

(** ** findEntryPath without a single entry point *)

(** X5: for a specification that does not require a single entry point,
    [findEntryPath] never throws and never records anything, in either mode:
    a function gets the first of src/index.js, src/index.ts, src/main.rs that
    exists, or no entry path when none does; any other specification gets no
    entry path. *)
Theorem findEntryPath_optional (W : World) (this : AppLoader) (directory : string)
    (specification : ExtensionSpecification) (errors : AppErrors.t) :
  singleEntryPath specification = false →
  ∃ entryPath,
    findEntryPath W this directory specification errors = (inr entryPath, errors)
    ∧ (identifier specification ≠ "function" → entryPath = None)
    ∧ (identifier specification = "function" →
       (entryPath = None ↔
        ∀ c, c ∈ ["src/index.js"; "src/index.ts"; "src/main.rs"] →
          fileExists W (joinPath W [directory; c]) = false)
       ∧ ∀ p, entryPath = Some p →
           ∃ i c, ["src/index.js"; "src/index.ts"; "src/main.rs"] !! i = Some c
             ∧ p = joinPath W [directory; c] ∧ fileExists W p = true
             ∧ ∀ j c', (j < i)%nat →
                 ["src/index.js"; "src/index.ts"; "src/main.rs"] !! j = Some c' →
                 fileExists W (joinPath W [directory; c']) = false).
Proof.
  intros Hsingle. unfold findEntryPath. rewrite Hsingle.
  destruct (String.eqb_spec (identifier specification) "function") as [Hfunction|Hother].
  - eexists. split; [reflexivity|]. split; [done|]. intros _. split.
    + split.
      * intros Hnone c Hc.
        destruct (fileExists W (joinPath W [directory; c])) eqn:Hexists; [|done].
        apply list_elem_of_lookup in Hc as (i & Hi).
        assert (Hleast : ∃ k c',
                  function_entry_candidates !! k = Some c'
                  ∧ fileExists W (joinPath W [directory; c']) = true
                  ∧ ∀ j c'', (j < k)%nat → function_entry_candidates !! j = Some c'' →
                      fileExists W (joinPath W [directory; c'']) = false).
        { clear Hnone. unfold function_entry_candidates.
          destruct (fileExists W (joinPath W [directory; "src/index.js"])) eqn:H0.
          { exists 0%nat, "src/index.js". repeat split; [done|]. intros j c'' Hj. lia. }
          destruct (fileExists W (joinPath W [directory; "src/index.ts"])) eqn:H1.
          { exists 1%nat, "src/index.ts". repeat split; [done|].
            intros [|j] c'' Hj Hc''; [simpl in Hc''; by injection Hc'' as <-|lia]. }
          destruct (fileExists W (joinPath W [directory; "src/main.rs"])) eqn:H2.
          { exists 2%nat, "src/main.rs". repeat split; [done|].
            intros [|[|j]] c'' Hj Hc''; simpl in Hc'';
              [by injection Hc'' as <-|by injection Hc'' as <-|lia]. }
          destruct i as [|[|[|i]]]; simpl in Hi; try done;
            injection Hi as <-; congruence. }
        destruct Hleast as (k & c' & Hk & Hc' & Hbefore).
        rewrite (probe_first W directory _ k c' Hk Hc' Hbefore) in Hnone. done.
      * apply probe_none.
    + intros p Hp. by apply probe_selects_existing.
  - eexists. split; [reflexivity|]. split; [done|]. done.
Qed.

Lemma findEntryPath_optional_witness :
  ∃ entryPath,
    findEntryPath world_plain strict_loader "/app/extensions/f" function_specification ∅
    = (inr entryPath, ∅)
    ∧ entryPath = None.
Proof.
  destruct (findEntryPath_optional world_plain strict_loader "/app/extensions/f"
              function_specification ∅ eq_refl) as (entryPath & Hrun & _ & Hfunction).
  exists entryPath. split; [done|]. apply Hfunction; [done|]. intros c Hc. reflexivity.
Defined.

(** ** Computations that leave the error set alone *)

Lemma unchanged_ret {A} (a : A) : unchanged (ret a).
Proof. by intros errors outcome errors' [= _ <-]. Qed.

Lemma unchanged_throw {A} (e : exn) : unchanged (@throw A e).
Proof. by intros errors outcome errors' [= _ <-]. Qed.

Lemma unchanged_call {A} (r : js_error + A) : unchanged (call r).
Proof. destruct r; [apply unchanged_throw|apply unchanged_ret]. Qed.

Lemma unchanged_this_errors : unchanged this_errors.
Proof. by intros errors outcome errors' [= _ <-]. Qed.

Lemma unchanged_bind {A B} (m : Loader A) (k : A → Loader B) :
  unchanged m → (∀ a, unchanged (k a)) → unchanged (m ≫= k).
Proof.
  intros Hm Hk errors outcome errors'. rewrite bind_run.
  destruct (m errors) as [[e|a] errors1] eqn:Hrun.
  - intros [= _ <-]. by apply (Hm _ _ _ Hrun).
  - intros Hrest. rewrite (Hk _ _ _ _ Hrest). by apply (Hm _ _ _ Hrun).
Qed.

Lemma unchanged_mapM {A B} (f : A → Loader B) (xs : list A) :
  (∀ x, unchanged (f x)) → unchanged (mapM f xs).
Proof.
  intros Hf. induction xs as [|x xs IH]; simpl; [apply unchanged_ret|].
  apply unchanged_bind; [done|]. intros y.
  apply unchanged_bind; [done|]. intros ys. apply unchanged_ret.
Qed.

Lemma unchanged_forEach {A} (f : A → Loader unit) (xs : list A) :
  (∀ x, unchanged (f x)) → unchanged (forEach f xs).
Proof.
  intros Hf. induction xs as [|x xs IH]; simpl; [apply unchanged_ret|].
  apply unchanged_bind; [done|]. by intros [].
Qed.

Lemma unchanged_abort T message (fallback : T) path :
  unchanged (abort T message fallback path).
Proof. apply unchanged_throw. Qed.

Lemma unchanged_abortOrReport (this : AppLoader) T message (fallback : T) path :
  mode this = strict → unchanged (abortOrReport this T message fallback path).
Proof. intros Hstrict. unfold abortOrReport. rewrite Hstrict. apply unchanged_throw. Qed.

Lemma unchanged_grows {A} (m : Loader A) : unchanged m → grows m.
Proof. intros Hm errors outcome errors' Hrun. by rewrite (Hm _ _ _ Hrun). Qed.

Create HintDb unchanged.

#[local] Hint Resolve unchanged_ret unchanged_throw unchanged_call unchanged_this_errors
  unchanged_abort unchanged_abortOrReport : unchanged.

Local Ltac unchanged_step :=
  first
    [ apply unchanged_bind; [|intros ?]
    | apply unchanged_mapM; intros ?
    | apply unchanged_forEach; intros ?
    | solve [auto with unchanged]
    | case_match ].

Section silent.

Context (W : World).

Lemma unchanged_loadConfigurationFile filepath (policy : AbortOrReport) decode :
  (∀ T message (fallback : T) path, unchanged (policy T message fallback path)) →
  unchanged (loadConfigurationFile W filepath policy decode).
Proof. intros Hpolicy. unfold loadConfigurationFile. repeat unchanged_step. Qed.

Lemma unchanged_parseConfigurationFile schema filepath (policy : AbortOrReport) decode :
  (∀ T message (fallback : T) path, unchanged (policy T message fallback path)) →
  unchanged (parseConfigurationFile W schema filepath policy decode).
Proof.
  intros Hpolicy. unfold parseConfigurationFile.
  apply unchanged_bind; [by apply unchanged_loadConfigurationFile|intros ?].
  repeat unchanged_step.
Qed.

Lemma unchanged_getAppDirectory (this : AppConfigurationLoader) :
  unchanged (getAppDirectory W this).
Proof. unfold getAppDirectory. repeat unchanged_step. Qed.

Lemma unchanged_getConfigurationPath (this : AppConfigurationLoader) appDirectory :
  unchanged (getConfigurationPath W this appDirectory).
Proof. unfold getConfigurationPath. repeat unchanged_step. Qed.

Lemma unchanged_AppConfigurationLoader_loaded (this : AppConfigurationLoader) :
  unchanged (AppConfigurationLoader_loaded W this).
Proof.
  unfold AppConfigurationLoader_loaded.
  apply unchanged_bind; [apply unchanged_getAppDirectory|intros ?].
  apply unchanged_bind; [apply unchanged_getConfigurationPath|intros ?].
  apply unchanged_bind; [|intros ?; apply unchanged_ret].
  apply unchanged_parseConfigurationFile. intros. apply unchanged_abort.
Qed.

Lemma unchanged_loadDotEnv appDirectory : unchanged (loadDotEnv W appDirectory).
Proof. unfold loadDotEnv. repeat unchanged_step. Qed.

Lemma unchanged_loadAppName appDirectory : unchanged (loadAppName W appDirectory).
Proof. unfold loadAppName. repeat unchanged_step. Qed.

Section strict_mode.

Context (this : AppLoader) (Hstrict : mode this = strict).

Lemma unchanged_policy_strict T message (fallback : T) path :
  unchanged (abortOrReport this T message fallback path).
Proof. by apply unchanged_abortOrReport. Qed.

Lemma unchanged_findSpecificationForConfig configurationPath :
  unchanged (findSpecificationForConfig W (specifications this) configurationPath
               (abortOrReport this)).
Proof. unfold findSpecificationForConfig. repeat unchanged_step. Qed.

Lemma unchanged_findEntryPath directory specification :
  unchanged (findEntryPath W this directory specification).
Proof. unfold findEntryPath. repeat unchanged_step. Qed.

Lemma unchanged_loadExtension configurationPath :
  unchanged (loadExtension W this configurationPath).
Proof.
  unfold loadExtension.
  apply unchanged_bind; [apply unchanged_findSpecificationForConfig|intros ?].
  case_match; [|apply unchanged_ret].
  apply unchanged_bind;
    [apply unchanged_parseConfigurationFile, unchanged_policy_strict|intros ?].
  apply unchanged_bind; [apply unchanged_findEntryPath|intros ?].
  repeat unchanged_step.
Qed.

Lemma unchanged_loadExtensions appDirectory extensionDirectories :
  unchanged (loadExtensions W this appDirectory extensionDirectories).
Proof.
  unfold loadExtensions.
  apply unchanged_bind; [apply unchanged_mapM, unchanged_loadExtension|intros ?].
  apply unchanged_ret.
Qed.

Lemma unchanged_validateWebs webs : unchanged (validateWebs W this webs).
Proof. unfold validateWebs. repeat unchanged_step. Qed.

Lemma unchanged_loadWeb WebConfigurationFile :
  unchanged (loadWeb W this WebConfigurationFile).
Proof.
  unfold loadWeb.
  apply unchanged_bind;
    [apply unchanged_parseConfigurationFile, unchanged_policy_strict|intros ?].
  repeat unchanged_step.
Qed.

Lemma unchanged_loadWebs appDirectory webDirectories :
  unchanged (loadWebs W this appDirectory webDirectories).
Proof.
  unfold loadWebs.
  apply unchanged_bind; [apply unchanged_mapM, unchanged_loadWeb|intros ?].
  apply unchanged_bind; [apply unchanged_validateWebs|intros ?]. apply unchanged_ret.
Qed.

Lemma unchanged_loaded : unchanged (loaded W this).
Proof.
  unfold loaded.
  apply unchanged_bind; [apply unchanged_AppConfigurationLoader_loaded|intros ?].
  apply unchanged_bind; [apply unchanged_loadDotEnv|intros ?].
  apply unchanged_bind; [apply unchanged_loadExtensions|intros [? ?]].
  apply unchanged_bind; [apply unchanged_loadAppName|intros ?].
  apply unchanged_bind; [apply unchanged_call|intros ?].
  apply unchanged_bind; [apply unchanged_call|intros ?].
  apply unchanged_bind; [apply unchanged_loadWebs|intros [? ?]].
  repeat unchanged_step.
Qed.

End strict_mode.

End silent.

(** X6: in strict mode, which is also the mode of a load that names none, nothing
    is ever written to the error set: whether the load returns or throws the
    error set is still empty, and a returned application has no [errors]
    attribute. *)
Theorem strict_load_records_nothing (W : World) (options : AppLoaderConstructorArgs)
    (outcome : exn + App) (recorded : AppErrors.t) :
  args_mode options = None ∨ args_mode options = Some strict →
  load W options = (outcome, recorded) →
  recorded = ∅ ∧ ∀ app, outcome = inr app → errors app = None.
Proof.
  intros Hmode Hload. unfold load in Hload.
  assert (Hstrict : mode (new_AppLoader options) = strict).
  { unfold new_AppLoader. simpl. by destruct Hmode as [-> | ->]. }
  pose proof (unchanged_loaded W _ Hstrict _ _ _ Hload) as ->.
  split; [done|]. intros app ->.
  by rewrite (loaded_returns _ _ _ _ _ Hload).
Qed.

Lemma strict_load_records_nothing_witness :
  load world_unknown_extension (mk_args "/app" None None [ui_specification])
  = (inl (AbortError (unknown_type_message world_unknown_extension "unknown-kind"
                        "/app/extensions/x/x.extension.toml")), ∅)
  ∧ load world_plain (mk_args "/app" (Some strict) None [ui_specification])
    = (inr plain_app, ∅)
  ∧ errors plain_app = None.
Proof.
  split; [reflexivity|]. split; [reflexivity|].
  by apply (strict_load_records_nothing world_plain
              (mk_args "/app" (Some strict) None [ui_specification])
              (inr plain_app) ∅ (or_intror eq_refl) eq_refl).
Defined.

(** ** Diagnostics are kept *)

Lemma grows_loaded (W : World) (this : AppLoader) : grows (loaded W this).
Proof.
  unfold loaded.
  apply grows_bind;
    [apply unchanged_grows, unchanged_AppConfigurationLoader_loaded|intros ?].
  apply grows_bind; [apply unchanged_grows, unchanged_loadDotEnv|intros ?].
  apply grows_bind; [apply grows_loadExtensions|intros [? ?]].
  apply grows_bind; [apply unchanged_grows, unchanged_loadAppName|intros ?].
  apply grows_bind; [apply grows_call|intros ?].
  apply grows_bind; [apply grows_call|intros ?].
  apply grows_bind; [apply grows_loadWebs|intros [? ?]].
  repeat grows_step.
Qed.

(** X8: no step of a load removes a path from the error set: a path that holds a
    diagnostic before the extensions are resolved, before the webs are
    resolved or before the whole load still holds one afterwards, whether the
    step returns or throws (the message may have been replaced). *)
Theorem diagnostics_are_kept (W : World) (this : AppLoader) (path : string)
    (before : AppErrors.t) :
  is_Some (AppErrors.getError path before) →
  (∀ appDirectory extensionDirectories outcome after,
     loadExtensions W this appDirectory extensionDirectories before = (outcome, after) →
     is_Some (AppErrors.getError path after))
  ∧ (∀ appDirectory webDirectories outcome after,
     loadWebs W this appDirectory webDirectories before = (outcome, after) →
     is_Some (AppErrors.getError path after))
  ∧ (∀ outcome after,
     loaded W this before = (outcome, after) →
     is_Some (AppErrors.getError path after)).
Proof.
  unfold AppErrors.getError. intros Hbefore%elem_of_dom.
  split; [|split]; intros; apply elem_of_dom.
  - by eapply grows_loadExtensions.
  - by eapply grows_loadWebs.
  - by eapply grows_loaded.
Qed.

Lemma diagnostics_are_kept_witness :
  is_Some (AppErrors.getError "/app/old.toml"
             (loaded world_unknown_extension report_loader
                (AppErrors.addError "/app/old.toml" [text "old"] ∅)).2).
Proof.
  destruct (diagnostics_are_kept world_unknown_extension report_loader "/app/old.toml"
              (AppErrors.addError "/app/old.toml" [text "old"] ∅)) as (_ & _ & Hload).
  - by eexists.
  - eapply Hload. apply surjective_pairing.
Defined.

(** ** Schema validation *)

(** X9: a configuration file that exists and decodes to a truthy document is
    handed to the schema: parsed data is returned with the error set
    untouched; on failure strict mode throws, and report mode returns the
    empty object and records, under the file's path, the message that carries
    the serialized issues. *)
Theorem parseConfigurationFile_schema (W : World) (this : AppLoader)
    (schema : ZodSchema) (filepath : string) (decode : string → js_error + jsval)
    (errors : AppErrors.t) (content : string) (document : jsval) :
  fileExists W filepath = true →
  readFile W filepath = inr content →
  decode content = inr document →
  truthy document = true →
  parseConfigurationFile W schema filepath (abortOrReport this) decode errors
  = match safeParse schema document with
    | parse_success data => (inr data, errors)
    | parse_failure issues =>
        match mode this with
        | strict => (inl (AbortError (schema_error_message W filepath issues)), errors)
        | report =>
            (inr (JObj []),
             AppErrors.addError filepath (schema_error_message W filepath issues) errors)
        end
    end.
Proof.
  intros Hexists Hread Hdecode Htruthy. unfold parseConfigurationFile.
  rewrite (loadConfigurationFile_decoded W _ _ _ _ _ Hexists Hread Hdecode).
  rewrite bind_run. simpl. rewrite Htruthy. simpl.
  destruct (safeParse schema document); [done|].
  unfold abortOrReport. by destruct (mode this).
Qed.

Lemma parseConfigurationFile_schema_witness :
  parseConfigurationFile world_plain rejecting_schema "/app/shopify.app.toml"
    (abortOrReport report_loader) (decodeToml world_plain) ∅
  = (inr (JObj []),
     AppErrors.addError "/app/shopify.app.toml"
       (schema_error_message world_plain "/app/shopify.app.toml" (JArr [JStr "Required"]))
       ∅).
Proof.
  by apply (parseConfigurationFile_schema world_plain report_loader rejecting_schema
              "/app/shopify.app.toml" (decodeToml world_plain) ∅ "name = 'app'" (JObj [])).
Defined.

(** ** The root configuration *)

(** X10: whatever the mode of the loader, the root configuration is resolved
    with the policy that always throws, so every problem with it is thrown by
    the load, in report mode too, and nothing is recorded: once the app
    directory is found, a missing configuration file of the chosen name and a
    schema failure of it are thrown as an [AbortError]; a failure to read or
    decode it is thrown as an [AbortError] carrying the decode message when
    the error's [line], [pos] and [col] are all non-zero, and as the decoder's
    own error otherwise. *)
Theorem root_configuration_always_fatal (W : World) (this : AppLoader)
    (initial : AppErrors.t) (appDirectory : string) :
  let chosen :=
    match loader_configName this with
    | Some name => Some name
    | None => getAppInfo_configFile W appDirectory
    end in
  let configurationFileName :=
    getAppConfigurationFileName (configurationFileNames_app W) chosen in
  let configurationPath := joinPath W [appDirectory; configurationFileName] in
  getAppDirectory W
    (mk_configuration_loader (loader_directory this) (loader_configName this)) initial
  = (inr appDirectory, initial) →
  (fileExists W configurationPath = false →
     loaded W this initial
     = (inl (AbortError
               (configuration_file_not_found configurationFileName (loader_directory this))),
        initial))
  ∧ (∀ e,
       fileExists W configurationPath = true →
       decoding_fails W configurationPath (decodeToml W) e →
       loaded W this initial
       = (inl (if position_truthy e
               then AbortError (decode_error_message configurationPath e)
               else OtherError e),
          initial))
  ∧ (∀ content document issues,
       fileExists W configurationPath = true →
       readFile W configurationPath = inr content →
       decodeToml W content = inr document →
       truthy document = true →
       safeParse (AppConfigurationSchema W) document = parse_failure issues →
       loaded W this initial
       = (inl (AbortError (schema_error_message W configurationPath issues)), initial)).
Proof.
  intros chosen configurationFileName configurationPath Hdirectory.
  assert (Hstart : ∀ outcome,
    parseConfigurationFile W (AppConfigurationSchema W) configurationPath abort
      (decodeToml W) initial = (inl outcome, initial) →
    fileExists W configurationPath = true →
    loaded W this initial = (inl outcome, initial)).
  { intros outcome Hparse Hexists. unfold loaded, AppConfigurationLoader_loaded.
    rewrite !bind_run, Hdirectory. simpl.
    unfold getConfigurationPath. simpl.
    fold chosen. fold configurationFileName. fold configurationPath.
    rewrite Hexists. simpl. rewrite bind_run. simpl. by rewrite bind_run, Hparse. }
  split; [|split].
  - intros Hmissing. unfold loaded, AppConfigurationLoader_loaded.
    rewrite !bind_run, Hdirectory. simpl.
    unfold getConfigurationPath. simpl.
    fold chosen. fold configurationFileName. fold configurationPath.
    by rewrite Hmissing.
  - intros e Hexists Hfails. apply Hstart; [|done].
    unfold parseConfigurationFile.
    rewrite bind_run, (loadConfigurationFile_caught W _ _ _ _ Hexists Hfails).
    by destruct (position_truthy e).
  - intros content document issues Hexists Hread Hdecode Htruthy Hschema.
    apply Hstart; [|done]. unfold parseConfigurationFile.
    rewrite (loadConfigurationFile_decoded W _ _ _ _ _ Hexists Hread Hdecode).
    rewrite bind_run. simpl. by rewrite Htruthy, Hschema.
Qed.

Lemma root_configuration_always_fatal_witness :
  loaded (with_schemas world_plain rejecting_schema any_schema) report_loader ∅
  = (inl (AbortError
            (schema_error_message world_plain "/app/shopify.app.toml"
               (JArr [JStr "Required"]))), ∅)
  ∧ loaded world_malformed_root report_loader ∅
    = (inl (OtherError first_line_error), ∅).
Proof.
  split.
  - destruct (root_configuration_always_fatal
                (with_schemas world_plain rejecting_schema any_schema) report_loader ∅
                "/app" eq_refl) as (_ & _ & Hschema).
    by apply (Hschema "name = 'app'" (JObj []) (JArr [JStr "Required"])).
  - destruct (root_configuration_always_fatal world_malformed_root report_loader ∅
                "/app" eq_refl) as (_ & Hdecode & _).
    apply (Hdecode first_line_error); [reflexivity|]. right. by exists "= 1".
Defined.

(** ** Objects and sets of JavaScript values *)

Lemma same_value_zero_true (a b : jsval) : same_value_zero a b = true → a = b.
Proof.
  destruct a, b; simpl; try done.
  - by intros ->%Bool.eqb_prop.
  - by intros ->%Z.eqb_eq.
  - by intros ->%String.eqb_eq.
Qed.

Lemma same_value_zero_refl (a : jsval) : primitive a = true → same_value_zero a a = true.
Proof.
  destruct a; simpl; try done; intros _.
  - by destruct b.
  - apply Z.eqb_refl.
  - apply String.eqb_refl.
Qed.

Lemma includes_elem_of (v : jsval) (xs : list jsval) : includes v xs = true → v ∈ xs.
Proof.
  unfold includes. intros (x & Hin & ->%same_value_zero_true)%existsb_exists.
  by apply list_elem_of_In.
Qed.

Lemma elem_of_includes (v : jsval) (xs : list jsval) :
  primitive v = true → v ∈ xs → includes v xs = true.
Proof.
  intros Hprimitive Hin. unfold includes. apply existsb_exists. exists v.
  split; [by apply list_elem_of_In|by apply same_value_zero_refl].
Qed.

Lemma elem_of_set_add (elems : list jsval) (v x : jsval) :
  x ∈ set_add elems v ↔ x ∈ elems ∨ x = v.
Proof.
  unfold set_add. destruct (includes v elems) eqn:Hincludes.
  - split; [by left|]. intros [Hin| ->]; [done|by apply includes_elem_of].
  - rewrite elem_of_app, list_elem_of_singleton. done.
Qed.

Lemma NoDup_set_add (elems : list jsval) (v : jsval) :
  primitive v = true → NoDup elems → NoDup (set_add elems v).
Proof.
  intros Hprimitive Hnodup. unfold set_add.
  destruct (includes v elems) eqn:Hincludes; [done|].
  apply NoDup_app. split; [done|]. split; [|apply NoDup_singleton].
  intros x Hx ->%list_elem_of_singleton.
  rewrite (elem_of_includes _ _ Hprimitive Hx) in Hincludes. discriminate.
Qed.

Lemma elem_of_foldl_set_add (xs acc : list jsval) (x : jsval) :
  x ∈ foldl set_add acc xs ↔ x ∈ acc ∨ x ∈ xs.
Proof.
  revert acc. induction xs as [|y xs IH]; intros acc; simpl.
  - rewrite elem_of_nil. tauto.
  - rewrite IH, elem_of_set_add, elem_of_cons. tauto.
Qed.

Lemma NoDup_foldl_set_add (xs acc : list jsval) :
  forallb primitive xs = true → NoDup acc → NoDup (foldl set_add acc xs).
Proof.
  revert acc. induction xs as [|y xs IH]; intros acc; simpl; [done|].
  intros [Hy Hxs]%andb_true_iff Hacc. apply IH; [done|]. by apply NoDup_set_add.
Qed.

Lemma get_field_set_field (key key' : string) (v : jsval) fields :
  get_field key (set_field key' v fields)
  = if String.eqb key' key then Some v else get_field key fields.
Proof.
  induction fields as [|[k w] fields IH]; simpl.
  - by rewrite String.eqb_refl || destruct (String.eqb_spec key' key).
  - destruct (String.eqb_spec k key') as [->|Hk]; simpl.
    + by destruct (String.eqb_spec key' key).
    + destruct (String.eqb_spec k key) as [->|Hkey].
      * destruct (String.eqb_spec key' key); [congruence|done].
      * exact IH.
Qed.

Lemma get_field_remove_field (key key' : string) fields :
  get_field key (remove_field key' fields)
  = if String.eqb key key' then None else get_field key fields.
Proof.
  unfold remove_field. induction fields as [|[k w] fields IH]; simpl.
  - by destruct (String.eqb key key').
  - rewrite filter_cons. simpl.
    destruct (String.eqb_spec k key') as [->|Hk]; simpl.
    + rewrite IH. destruct (String.eqb_spec key key') as [->|Hkey]; [done|].
      by destruct (String.eqb_spec key' key); [congruence|].
    + destruct (String.eqb_spec k key) as [->|Hkey]; [|exact IH].
      by destruct (String.eqb_spec key key'); [congruence|].
Qed.

(** ** loadWeb *)

Section web_resolution.

Context (W : World) (this : AppLoader).

Lemma loadWeb_parsed file errors fields errors' declared :
  parseConfigurationFile W (WebConfigurationSchema W) file (abortOrReport this)
    (decodeToml W) errors = (inr (JObj fields), errors') →
  (get_field "roles" fields = None ∧ declared = []
   ∨ get_field "roles" fields = Some (JArr declared)) →
  loadWeb W this file errors
  = (inr (mk_web (dirname W file)
            (match get_field "type" fields with
             | Some type => set_add (set_of_list declared) type
             | None => set_of_list declared
             end)
            (remove_field "roles"
               (remove_field "type"
                  (set_field "type" JUndefined
                     (set_field "roles"
                        (JArr (match get_field "type" fields with
                               | Some type => set_add (set_of_list declared) type
                               | None => set_of_list declared
                               end)) fields))))
            (resolveFramework W (dirname W file))),
     errors').
Proof.
  intros Hparse Hroles. unfold loadWeb. rewrite (bind_step _ _ _ _ _ Hparse).
  unfold has_field.
  destruct Hroles as [[-> ->]| ->]; simpl;
    by destruct (get_field "type" fields).
Qed.

Lemma loadWeb_returns file errors web errors' :
  loadWeb W this file errors = (inr web, errors') →
  web_directory web = dirname W file
  ∧ framework web = resolveFramework W (dirname W file).
Proof.
  unfold loadWeb. intros (config & errors1 & _ & Hrest)%bind_returns.
  destruct config; try discriminate.
  destruct (if has_field "roles" fields then _ else _); [|discriminate].
  by injection Hrest as <- _.
Qed.

(** X11: the roles of a web are the declared roles together with the legacy
    [type]: every declared role and the type are among them and nothing else
    is, no role is repeated, the configuration that is kept has neither a
    [type] nor (beside the roles) a [roles] field, and every other field of
    the parsed configuration is kept. *)
Theorem loadWeb_roles (file : string) (errors errors' : AppErrors.t)
    (fields : list (string * jsval)) (declared : list jsval) :
  parseConfigurationFile W (WebConfigurationSchema W) file (abortOrReport this)
    (decodeToml W) errors = (inr (JObj fields), errors') →
  (get_field "roles" fields = None ∧ declared = []
   ∨ get_field "roles" fields = Some (JArr declared)) →
  ∃ web,
    loadWeb W this file errors = (inr web, errors')
    ∧ web_directory web = dirname W file
    ∧ (∀ role, role ∈ roles web ↔ role ∈ declared ∨ get_field "type" fields = Some role)
    ∧ (forallb primitive declared = true →
       (∀ type, get_field "type" fields = Some type → primitive type = true) →
       NoDup (roles web))
    ∧ get_field "type" (web_rest web) = None
    ∧ get_field "roles" (web_rest web) = None
    ∧ ∀ key value, key ≠ "type" → key ≠ "roles" →
        get_field key fields = Some value →
        get_field key (web_rest web) = Some value.
Proof.
  intros Hparse Hroles. eexists. split; [by apply loadWeb_parsed|]. simpl.
  split; [done|]. unfold set_of_list. split; [|split; [|split; [|split]]].
  - intros role. destruct (get_field "type" fields) as [type|].
    + rewrite elem_of_set_add, elem_of_foldl_set_add, elem_of_nil.
      split; [intros [[[]|Hin]| ->]; auto|intros [Hin|[= ->]]; auto].
    + rewrite elem_of_foldl_set_add, elem_of_nil.
      split; [intros [[]|Hin]; auto|intros [Hin|[=]]; auto].
  - intros Hdeclared Htype.
    assert (Hset : NoDup (foldl set_add [] declared))
      by (apply NoDup_foldl_set_add; [done|apply NoDup_nil_2]).
    destruct (get_field "type" fields) as [type|]; [|done].
    apply NoDup_set_add; [by apply Htype|done].
  - rewrite get_field_remove_field. simpl. by rewrite get_field_remove_field.
  - by rewrite get_field_remove_field.
  - intros key value Htype Hrolesne Hfield.
    rewrite !get_field_remove_field, !get_field_set_field.
    destruct (String.eqb_spec key "roles"); [done|].
    destruct (String.eqb_spec key "type"); [done|].
    destruct (String.eqb_spec "type" key); [congruence|].
    by destruct (String.eqb_spec "roles" key); [congruence|].
Qed.

(** X12: in report mode a web whose configuration file fails the web schema,
    or cannot be read or decoded and the error's [line], [pos] and [col] are
    all non-zero, is still returned: with no role, no other field, and the
    diagnostic recorded under the file's path. Any other failure to read or
    decode the file (an error without a position, or positioned at line,
    offset or column zero) is thrown, no web is returned and nothing is
    recorded. *)
Theorem loadWeb_report_fallback (file : string) (errors : AppErrors.t) :
  mode this = report →
  fileExists W file = true →
  (∀ e, decoding_fails W file (decodeToml W) e →
     loadWeb W this file errors
     = if position_truthy e
       then (inr (mk_web (dirname W file) [] [] (resolveFramework W (dirname W file))),
             AppErrors.addError file (decode_error_message file e) errors)
       else (inl (OtherError e), errors))
  ∧ (∀ content document issues,
       readFile W file = inr content → decodeToml W content = inr document →
       truthy document = true →
       safeParse (WebConfigurationSchema W) document = parse_failure issues →
       loadWeb W this file errors
       = (inr (mk_web (dirname W file) [] [] (resolveFramework W (dirname W file))),
          AppErrors.addError file (schema_error_message W file issues) errors)).
Proof.
  intros Hreport Hexists. split.
  - intros e Hfails. destruct (position_truthy e) eqn:Hposition.
    + assert (Hparse : parseConfigurationFile W (WebConfigurationSchema W) file
                (abortOrReport this) (decodeToml W) errors
              = (inr (JObj []),
                 AppErrors.addError file (decode_error_message file e) errors)).
      { unfold parseConfigurationFile.
        rewrite bind_run, (loadConfigurationFile_caught W _ _ _ _ Hexists Hfails),
          Hposition.
        unfold abortOrReport. by rewrite Hreport. }
      by rewrite (loadWeb_parsed file errors [] _ [] Hparse
                    (or_introl (conj eq_refl eq_refl))).
    + unfold loadWeb, parseConfigurationFile.
      rewrite !bind_run, (loadConfigurationFile_caught W _ _ _ _ Hexists Hfails),
        Hposition.
      done.
  - intros content document issues Hread Hdecode Htruthy Hschema.
    assert (Hparse : parseConfigurationFile W (WebConfigurationSchema W) file
              (abortOrReport this) (decodeToml W) errors
            = (inr (JObj []),
               AppErrors.addError file (schema_error_message W file issues) errors)).
    { unfold parseConfigurationFile.
      rewrite (loadConfigurationFile_decoded W _ _ _ _ _ Hexists Hread Hdecode).
      rewrite bind_run. simpl. rewrite Htruthy, Hschema. simpl.
      unfold abortOrReport. by rewrite Hreport. }
    by rewrite (loadWeb_parsed file errors [] _ [] Hparse
                  (or_introl (conj eq_refl eq_refl))).
Qed.

(** X13: the webs come back in the order of the configuration files found, one per
    file, each with the directory of its file and the framework detected
    there; the layout counts as custom whenever web directories were given,
    and otherwise exactly when the standard location holds a different number
    of web configuration files. *)
Theorem loadWebs_shape (appDirectory : string) (webDirectories : option (list string))
    (errors errors' : AppErrors.t) (webs : list Web) (usedCustomLayout : bool) :
  loadWebs W this appDirectory webDirectories errors
  = (inr (webs, usedCustomLayout), errors') →
  web_directory <$> webs = dirname W <$> webTomlPaths W appDirectory webDirectories
  ∧ framework <$> webs
    = (λ path, resolveFramework W (dirname W path))
        <$> webTomlPaths W appDirectory webDirectories
  ∧ (is_Some webDirectories → usedCustomLayout = true)
  ∧ (webDirectories = None →
     (usedCustomLayout = false ↔
      List.length
        (glob W [joinPath W [appDirectory; "web/**/" +:+ configurationFileNames_web W]])
      = List.length (webTomlPaths W appDirectory webDirectories))).
Proof.
  unfold loadWebs. fold (webTomlPaths W appDirectory webDirectories).
  intros (loadedWebs & errors1 & Hwebs & Hrest)%bind_returns.
  apply bind_returns in Hrest as ([] & errors2 & _ & [= <- <- _]).
  assert (Heach : ∀ paths errors0 errors3 loadedWebs0,
    mapM (loadWeb W this) paths errors0 = (inr loadedWebs0, errors3) →
    web_directory <$> loadedWebs0 = dirname W <$> paths
    ∧ framework <$> loadedWebs0 = (λ path, resolveFramework W (dirname W path)) <$> paths).
  { clear. induction paths as [|path paths IH]; intros errors0 errors3 loadedWebs0; simpl.
    - by intros [= <- _].
    - intros (web & errors1 & [Hdir Hframework]%loadWeb_returns & Hrest)%bind_returns.
      apply bind_returns in Hrest as (rest & errors2 & [Hdirs Hframeworks]%IH & [= <- _]).
      rewrite !fmap_cons. by rewrite Hdir, Hframework, Hdirs, Hframeworks. }
  destruct (Heach _ _ _ _ Hwebs) as [Hdirs Hframeworks].
  split; [done|]. split; [done|]. split.
  - intros Hsome. by rewrite bool_decide_eq_true_2.
  - intros ->. rewrite bool_decide_eq_false_2 by (by intros [? ?]). simpl.
    rewrite negb_false_iff. apply Nat.eqb_eq.
Qed.

End web_resolution.

Lemma loadWeb_roles_witness :
  ∃ web,
    loadWeb world_legacy_web report_loader "/app/web/shopify.web.toml" ∅ = (inr web, ∅)
    ∧ roles web = [JStr "frontend"; JStr "backend"]
    ∧ web_rest web = [("name", JStr "web")].
Proof.
  destruct (loadWeb_roles world_legacy_web report_loader "/app/web/shopify.web.toml"
              ∅ ∅ [("name", JStr "web"); ("type", JStr "backend");
                   ("roles", JArr [JStr "frontend"; JStr "frontend"])]
              [JStr "frontend"; JStr "frontend"] eq_refl (or_intror eq_refl))
    as (web & Hload & _).
  exists web. split; [done|].
  assert (Hweb : inr web = (loadWeb world_legacy_web report_loader
                       "/app/web/shopify.web.toml" ∅).1 :> exn + Web) by (by rewrite Hload).
  injection Hweb as ->. split; reflexivity.
Defined.

Lemma loadWeb_report_fallback_witness :
  loadWeb world_malformed report_loader "/app/web/shopify.web.toml" ∅
  = (inr (mk_web "/app/web" [] [] "unknown"),
     AppErrors.addError "/app/web/shopify.web.toml"
       (decode_error_message "/app/web/shopify.web.toml" third_line_error) ∅)
  ∧ loadWeb world_malformed_root report_loader "/app/web/shopify.web.toml" ∅
    = (inl (OtherError first_line_error), ∅).
Proof.
  split.
  - destruct (loadWeb_report_fallback world_malformed report_loader
                "/app/web/shopify.web.toml" ∅ eq_refl eq_refl) as (Hdecode & _).
    apply (Hdecode third_line_error). right. by exists "a = [".
  - destruct (loadWeb_report_fallback world_malformed_root report_loader
                "/app/web/shopify.web.toml" ∅ eq_refl eq_refl) as (Hdecode & _).
    apply (Hdecode first_line_error). right. by exists "= 1".
Defined.

Lemma loadWebs_shape_witness :
  web_directory <$> [backend_web "/app/web/a"; backend_web "/app/web/b"]
  = dirname world_two_backends <$> webTomlPaths world_two_backends "/app" None.
Proof.
  destruct (loadWebs_shape world_two_backends report_loader "/app" None ∅
              (AppErrors.addError "/app/web/b/shopify.web.toml"
                 (role_conflict_message Backend) ∅)
              [backend_web "/app/web/a"; backend_web "/app/web/b"] false)
    as (Hdirectories & _); [reflexivity|exact Hdirectories].
Defined.

(** ** Extension instances *)

Section extension_resolution.

Context (W : World) (this : AppLoader).

Lemma findSpecificationForConfig_returns path errors specification errors' :
  findSpecificationForConfig W (specifications this) path (abortOrReport this) errors
  = (inr (Some specification), errors') →
  errors' = errors
  ∧ ∃ fileContent obj type,
      readFile W path = inr fileContent
      ∧ decodeToml W fileContent = inr obj
      ∧ TypeSchema_parse W obj = inr type
      ∧ findSpecificationForType (specifications this) type = Some specification.
Proof.
  unfold findSpecificationForConfig.
  intros (content & s1 & [Hread ->]%call_returns & Hrest)%bind_returns.
  apply bind_returns in Hrest as (obj & s2 & [Hdecode ->]%call_returns & Hrest).
  apply bind_returns in Hrest as (type & s3 & [Htype ->]%call_returns & Hrest).
  destruct (findSpecificationForType (specifications this) type) as [found|] eqn:Hfind.
  - injection Hrest as <- <-. split; [done|]. by exists content, obj, type.
  - by apply bind_returns in Hrest as ([] & s4 & _ & [=]).
Qed.

Lemma loadExtension_returns path errors extension errors' :
  loadExtension W this path errors = (inr (Some extension), errors') →
  ext_configurationPath extension = path
  ∧ ext_directory extension = dirname W path
  ∧ (∃ fileContent obj type,
       readFile W path = inr fileContent
       ∧ decodeToml W fileContent = inr obj
       ∧ TypeSchema_parse W obj = inr type
       ∧ findSpecificationForType (specifications this) type
         = Some (ext_specification extension))
  ∧ ∀ error, validate W extension = err error →
      mode this = report
      ∧ AppErrors.getError path errors' = Some (validation_error_message error).
Proof.
  unfold loadExtension.
  intros (specification & s1 & Hfind & Hrest)%bind_returns.
  destruct specification as [specification|]; [|discriminate].
  apply findSpecificationForConfig_returns in Hfind as [-> Hdeclared].
  apply bind_returns in Hrest as (configuration & s2 & _ & Hrest).
  apply bind_returns in Hrest as (entryPath & s3 & _ & Hrest).
  apply bind_returns in Hrest as ([] & s4 & Hvalidate & [= <- <-]). simpl.
  split; [done|]. split; [done|]. split; [done|].
  intros error Herror. rewrite Herror in Hvalidate.
  unfold abortOrReport in Hvalidate. destruct (mode this); [discriminate|].
  injection Hvalidate as <-. split; [done|]. apply lookup_insert_eq.
Qed.

Lemma sublist_of_loaded (paths : list string) (results : list (option ExtensionInstance)) :
  Forall2 (λ path result,
             ∀ extension, result = Some extension →
               ext_configurationPath extension = path) paths results →
  sublist (ext_configurationPath <$> getArrayRejectingUndefined results) paths.
Proof.
  unfold getArrayRejectingUndefined.
  induction 1 as [|path [extension|] paths results Hpath _ IH]; simpl; [done| |].
  - rewrite (Hpath extension eq_refl). by apply sublist_skip.
  - by apply sublist_cons.
Qed.

(** X14: the extensions returned are those of the configuration files found, in
    their order (files without an instance are left out); each has the
    directory of its file and a specification of the registry, the one the
    registry matcher returns for the type its file declares. The layout counts
    as custom exactly when extension directories were given. *)
Theorem loadExtensions_shape (appDirectory : string)
    (extensionDirectories : option (list string)) (errors errors' : AppErrors.t)
    (extensions : list ExtensionInstance) (usedCustomLayout : bool) :
  loadExtensions W this appDirectory extensionDirectories errors
  = (inr (extensions, usedCustomLayout), errors') →
  sublist (ext_configurationPath <$> extensions)
    (configPaths W appDirectory extensionDirectories)
  ∧ (usedCustomLayout = true ↔ is_Some extensionDirectories)
  ∧ ∀ extension, extension ∈ extensions →
      ext_directory extension = dirname W (ext_configurationPath extension)
      ∧ ext_specification extension ∈ specifications this
      ∧ ∃ fileContent obj type,
          readFile W (ext_configurationPath extension) = inr fileContent
          ∧ decodeToml W fileContent = inr obj
          ∧ TypeSchema_parse W obj = inr type
          ∧ findSpecificationForType (specifications this) type
            = Some (ext_specification extension).
Proof.
  unfold loadExtensions. fold (configPaths W appDirectory extensionDirectories).
  intros (results & errors1 & Hrun & [= <- <- _])%bind_returns.
  apply mapM_returns in Hrun; [|apply grows_loadExtension].
  split; [|split].
  - apply sublist_of_loaded. eapply Forall2_impl; [exact Hrun|]. simpl.
    intros path result (s1 & s2 & Hload & _) extension ->.
    by apply loadExtension_returns in Hload as (Hpath & _).
  - apply bool_decide_eq_true.
  - intros extension Hin. unfold getArrayRejectingUndefined in Hin.
    apply list_elem_of_omap in Hin as (result & Hresult & Hsome).
    simpl in Hsome. subst result.
    apply list_elem_of_lookup in Hresult as (i & Hi).
    destruct (Forall2_lookup_r _ _ _ _ _ Hrun Hi)
      as (path & _ & s1 & s2 & Hload & _).
    apply loadExtension_returns in Hload
      as (<- & Hdirectory & (content & obj & type & Hread & Hdecode & Htype & Hfind) & _).
    split; [done|]. split.
    + unfold findSpecificationForType in Hfind.
      apply find_some in Hfind as [Hin _]. by apply list_elem_of_In.
    + by exists content, obj, type.
Qed.

(** X15: an extension whose own validation fails is returned in report mode only,
    and then the validation message is the diagnostic found under its
    configuration path; in strict mode every returned extension has passed
    its validation. *)
Theorem loadExtensions_validation (appDirectory : string)
    (extensionDirectories : option (list string)) (errors errors' : AppErrors.t)
    (extensions : list ExtensionInstance) (usedCustomLayout : bool) :
  loadExtensions W this appDirectory extensionDirectories errors
  = (inr (extensions, usedCustomLayout), errors') →
  (∀ path errors1 extension errors2 error,
     loadExtension W this path errors1 = (inr (Some extension), errors2) →
     validate W extension = err error →
     mode this = report
     ∧ AppErrors.getError path errors2 = Some (validation_error_message error))
  ∧ (mode this = strict →
     ∀ extension, extension ∈ extensions → validate W extension = ok)
  ∧ ∀ extension error, extension ∈ extensions → validate W extension = err error →
      is_Some (AppErrors.getError (ext_configurationPath extension) errors').
Proof.
  intros Hrun.
  assert (Hone : ∀ path errors1 extension errors2 error,
     loadExtension W this path errors1 = (inr (Some extension), errors2) →
     validate W extension = err error →
     mode this = report
     ∧ AppErrors.getError path errors2 = Some (validation_error_message error)).
  { intros path errors1 extension errors2 error Hload Herror.
    apply loadExtension_returns in Hload as (_ & _ & _ & Hvalidate).
    by apply Hvalidate. }
  split; [exact Hone|].
  unfold loadExtensions in Hrun.
  apply bind_returns in Hrun as (results & errors1 & Hrun & [= <- _ <-]).
  apply mapM_returns in Hrun; [|apply grows_loadExtension].
  assert (Hmember : ∀ extension, extension ∈ getArrayRejectingUndefined results →
            ∃ path s1 s2, loadExtension W this path s1 = (inr (Some extension), s2)
                          ∧ dom s2 ⊆ dom errors1).
  { intros extension Hin. unfold getArrayRejectingUndefined in Hin.
    apply list_elem_of_omap in Hin as (result & Hresult & Hsome).
    simpl in Hsome. subst result.
    apply list_elem_of_lookup in Hresult as (i & Hi).
    destruct (Forall2_lookup_r _ _ _ _ _ Hrun Hi)
      as (path & _ & s1 & s2 & Hload & Hsub).
    by exists path, s1, s2. }
  split.
  - intros Hstrict extension (path & s1 & s2 & Hload & _)%Hmember.
    destruct (validate W extension) as [|error] eqn:Hvalidate; [done|].
    destruct (Hone _ _ _ _ _ Hload Hvalidate) as [Hreport _]. congruence.
  - intros extension error (path & s1 & s2 & Hload & Hsub)%Hmember Hvalidate.
    destruct (Hone _ _ _ _ _ Hload Hvalidate) as [_ Hrecorded].
    apply loadExtension_returns in Hload as (Hpath & _). rewrite Hpath.
    unfold AppErrors.getError in *.
    assert (Hkey : path ∈ dom s2) by (apply elem_of_dom; by eexists).
    apply elem_of_dom. by apply Hsub.
Qed.

End extension_resolution.

Lemma loadExtensions_shape_witness :
  sublist [ext_configurationPath invalid_extension]
    (configPaths world_invalid_extension "/app" None)
  ∧ ext_specification invalid_extension ∈ specifications report_loader.
Proof.
  destruct (loadExtensions_shape world_invalid_extension report_loader "/app" None ∅
              (AppErrors.addError "/app/extensions/x/x.extension.toml"
                 (validation_error_message "missing target") ∅)
              [invalid_extension] false eq_refl) as (Hsublist & _ & Heach).
  split; [exact Hsublist|]. apply Heach, list_elem_of_here.
Defined.

Lemma loadExtensions_validation_witness :
  is_Some (AppErrors.getError "/app/extensions/x/x.extension.toml"
             (AppErrors.addError "/app/extensions/x/x.extension.toml"
                (validation_error_message "missing target") ∅)).
Proof.
  destruct (loadExtensions_validation world_invalid_extension report_loader "/app" None ∅
              (AppErrors.addError "/app/extensions/x/x.extension.toml"
                 (validation_error_message "missing target") ∅)
              [invalid_extension] false eq_refl) as (_ & _ & Hrecorded).
  apply (Hrecorded invalid_extension "missing target"); [apply list_elem_of_here|done].
Defined.

(** ** getProjectType *)

(** X16: the project type is "frontend" exactly when no web declares the backend
    role and some web declares the frontend role; with two or more backend
    webs there is no project type; with exactly one backend web the type is
    read off that web's directory, whatever the other webs are: node when it
    holds package.json, else ruby when it holds Gemfile, else php when it holds
    composer.json, else none. *)
Theorem getProjectType_cases (W : World) (webs : list Web) :
  (getProjectType W webs = Some "frontend"
   ↔ websOfType webs Backend = [] ∧ websOfType webs Frontend ≠ [])
  ∧ ((1 < List.length (websOfType webs Backend))%nat → getProjectType W webs = None)
  ∧ ∀ backend,
      websOfType webs Backend = [backend] →
      getProjectType W webs
      = if fileExists W (joinPath W [web_directory backend; "package.json"])
        then Some "node"
        else if fileExists W (joinPath W [web_directory backend; "Gemfile"])
        then Some "ruby"
        else if fileExists W (joinPath W [web_directory backend; "composer.json"])
        then Some "php"
        else None.
Proof.
  unfold getProjectType.
  fold (websOfType webs Backend). fold (websOfType webs Frontend).
  destruct (websOfType webs Backend) as [|b1 [|b2 brest]]; simpl.
  - split; [|split; [lia|done]].
    destruct (websOfType webs Frontend); simpl; split; try done.
    + by intros [_ ?].
  - split; [|split; [lia|]].
    + split; [|by intros [? _]].
      repeat case_match; discriminate.
    + by intros backend [= <-].
  - split; [|split; [done|done]].
    split; [done|by intros [? _]].
Qed.

(** ** Entry points of returned extensions *)

(** X17: an extension whose specification requires a single entry point is
    returned with an entry path that is one of the eight candidates of its
    directory and exists; it is returned without one in report mode only, and
    then its directory is a key of the error set. *)
Theorem loadExtension_entry_point (W : World) (this : AppLoader) (path : string)
    (errors errors' : AppErrors.t) (extension : ExtensionInstance) :
  loadExtension W this path errors = (inr (Some extension), errors') →
  singleEntryPath (ext_specification extension) = true →
  match ext_entryPath extension with
  | Some entryPath =>
      fileExists W entryPath = true
      ∧ ∃ c, c ∈ single_entry_candidates
          ∧ entryPath = joinPath W [ext_directory extension; c]
  | None => mode this = report ∧ ext_directory extension ∈ dom errors'
  end.
Proof.
  unfold loadExtension.
  intros (specification & s1 & _ & Hrest)%bind_returns.
  destruct specification as [specification|]; [|discriminate].
  apply bind_returns in Hrest as (configuration & s2 & _ & Hrest).
  apply bind_returns in Hrest as (entryPath & s3 & Hentry & Hrest).
  apply bind_returns in Hrest as ([] & s4 & Hvalidate & [= <- <-]). simpl.
  intros Hsingle. unfold findEntryPath in Hentry. rewrite Hsingle in Hentry.
  apply bind_returns in Hentry as ([] & s5 & Hpolicy & [= <- <-]).
  destruct (probe W (dirname W path) single_entry_candidates) as [found|] eqn:Hprobe.
  - apply probe_selects_existing in Hprobe as (i & c & Hi & -> & Hexists & _).
    split; [done|]. exists c. split; [|done]. by apply list_elem_of_lookup_2 in Hi.
  - simpl in Hpolicy. unfold abortOrReport in Hpolicy.
    destruct (mode this); [discriminate|]. injection Hpolicy as <-.
    split; [done|].
    assert (Hgrows : dom (AppErrors.addError (dirname W path)
                            (findEntryPath_message W (dirname W path)) s2) ⊆ dom s4).
    { destruct (validate W _); [by injection Hvalidate as <-|].
      by apply (grows_abortOrReport _ _ _ _ _ _ _ _ Hvalidate). }
    apply Hgrows. unfold AppErrors.addError. rewrite dom_insert_L. set_solver.
Qed.

Lemma loadExtension_entry_point_witness :
  fileExists world_invalid_extension "/app/extensions/x/index.ts" = true
  ∧ ∃ c, c ∈ single_entry_candidates
      ∧ "/app/extensions/x/index.ts"
        = joinPath world_invalid_extension ["/app/extensions/x"; c].
Proof.
  exact (loadExtension_entry_point world_invalid_extension report_loader
           "/app/extensions/x/x.extension.toml" ∅
           (AppErrors.addError "/app/extensions/x/x.extension.toml"
              (validation_error_message "missing target") ∅)
           invalid_extension eq_refl eq_refl).
Defined.
